(** * stockfishcli: the UCI command interpreter of cordova-plugin-stockfish

    A shallow embedding of [src/ios/stockfishcli.cpp] (namespace
    [stockfishcli]): the handlers [position], [setoption], [go] and the
    dispatcher [command], over an explicit model of [std::istringstream]
    and an explicit world state for the globals the handlers touch. *)

From Stdlib Require Import ZArith Ascii String List Lia Bool.
From stdpp Require Import gmap strings list fin_maps.

Local Open Scope string_scope.
Local Open Scope Z_scope.

(** ** std::istringstream *)

(** [std::isspace] in the classic "C" locale: space and the five control
    characters tab, line feed, vertical tab, form feed, carriage return. *)
Definition isspace (c : ascii) : bool :=
  let n := nat_of_ascii c in
  ((n =? 32) || ((9 <=? n) && (n <=? 13)))%nat.

Definition isdigit (c : ascii) : bool :=
  let n := nat_of_ascii c in ((48 <=? n) && (n <=? 57))%nat.

(** The unread characters of the stream, its [failbit], and a ghost counter
    of the extractions attempted on it so far.  [eofbit] is not kept: it is
    set exactly when the unread part is empty, and an extraction from an
    empty unread part fails in the sentry either way. *)
Record istream : Type := mkIs {
  buf : string;
  failbit : bool;
  nreads : nat
}.

(** [std::istringstream is(cmd)] (the stream is called [iss] below) *)
Definition istringstream (cmd : string) : istream :=
  {| buf := cmd; failbit := false; nreads := 0 |}.

(** What the sentry does under [skipws]: drop leading white space. *)
Fixpoint skipws (s : string) : string :=
  match s with
  | String c s' => if isspace c then skipws s' else s
  | EmptyString => EmptyString
  end.

(** The characters up to the next white space, and what follows them. *)
Fixpoint read_word (s : string) : string * string :=
  match s with
  | String c s' =>
      if isspace c then (EmptyString, s)
      else let (w, r) := read_word s' in (String c w, r)
  | EmptyString => (EmptyString, EmptyString)
  end.

(** [is >> token] for a [std::string].  [None] is a failed extraction: the
    stream is left with [failbit] set and the caller's [token] keeps its old
    contents (the sentry fails before the string is erased). *)
Definition read_string (iss : istream) : option string * istream :=
  if failbit iss then
    (None, {| buf := buf iss; failbit := true; nreads := S (nreads iss) |})
  else
    match read_word (skipws (buf iss)) with
    | (EmptyString, _) =>
        (None, {| buf := EmptyString; failbit := true; nreads := S (nreads iss) |})
    | (w, r) =>
        (Some w, {| buf := r; failbit := false; nreads := S (nreads iss) |})
    end.

(** The maximal run of decimal digits, and what follows it. *)
Fixpoint read_digits (s : string) : string * string :=
  match s with
  | String c s' =>
      if isdigit c then let (d, r) := read_digits s' in (String c d, r)
      else (EmptyString, s)
  | EmptyString => (EmptyString, EmptyString)
  end.

Fixpoint digits_value (acc : Z) (ds : string) : Z :=
  match ds with
  | String c ds' => digits_value (10 * acc + Z.of_nat (nat_of_ascii c) - 48) ds'
  | EmptyString => acc
  end.

(** The digits of an integer field, after its optional sign: a field without
    digits stores 0 and sets [failbit]; a value outside [lo..hi] stores the
    nearest bound and sets [failbit]. *)
Definition read_int_digits (lo hi : Z) (n : nat) (neg : bool) (s : string)
  : option Z * istream :=
  let (ds, r) := read_digits s in
  match ds with
  | EmptyString => (Some 0, {| buf := r; failbit := true; nreads := n |})
  | _ =>
      let v := if neg then - digits_value 0 ds else digits_value 0 ds in
      if v <? lo then (Some lo, {| buf := r; failbit := true; nreads := n |})
      else if hi <? v then (Some hi, {| buf := r; failbit := true; nreads := n |})
      else (Some v, {| buf := r; failbit := false; nreads := n |})
  end.

(** [is >> n] for a signed integer type with range [lo..hi] ([num_get] in
    base ten: an optional sign, then digits).  The first component is the
    value stored into [n], or [None] when [n] is left untouched (the sentry
    failed: stream already failed, or nothing but white space left). *)
Definition read_int (lo hi : Z) (iss : istream) : option Z * istream :=
  let n := S (nreads iss) in
  if failbit iss then (None, {| buf := buf iss; failbit := true; nreads := n |})
  else
    match skipws (buf iss) with
    | EmptyString => (None, {| buf := EmptyString; failbit := true; nreads := n |})
    | String c s' as s =>
        if Ascii.eqb c "-" then read_int_digits lo hi n true s'
        else if Ascii.eqb c "+" then read_int_digits lo hi n false s'
        else read_int_digits lo hi n false s
    end.

Definition INT_MIN : Z := - 2 ^ 31.
Definition INT_MAX : Z := 2 ^ 31 - 1.
Definition INT64_MIN : Z := - 2 ^ 63.
Definition INT64_MAX : Z := 2 ^ 63 - 1.

(** ** The white-space separated words of a string

    The reference tokenisation the statements are phrased with; it is
    defined by structural recursion on the text, independently of the stream
    operations above. *)
Definition starts_word (s : string) : bool :=
  match s with
  | String c _ => negb (isspace c)
  | EmptyString => false
  end.

Fixpoint words (s : string) : list string :=
  match s with
  | EmptyString => []
  | String c s' =>
      if isspace c then words s'
      else if starts_word s' then
        match words s' with
        | w :: ws => String c w :: ws
        | [] => [String c EmptyString]
        end
      else String c EmptyString :: words s'
  end.

(** [join sep ws]: the words separated by [sep]. *)
Fixpoint join (sep : string) (ws : list string) : string :=
  match ws with
  | [] => EmptyString
  | [w] => w
  | w :: ws' => w +:+ sep +:+ join sep ws'
  end.

(** ** The collaborators

    Everything [stockfishcli.cpp] calls but does not define: the position
    model, the move parser, the evaluation trace, the clock, the variant
    constants of [types.h] and the preprocessor switches of the build.  The
    interpreter is verified against any implementation of this interface. *)
Class Engine : Type := {
  Position : Type;
  Move : Type;
  StateInfo : Type;
  CheckInfo : Type;
  Thread : Type;
  MOVE_NONE : Move;
  Move_eq_dec :: EqDecision Move;
  (* types.h *)
  STANDARD_VARIANT : Z;
  CHESS960_VARIANT : Z;
  ATOMIC_VARIANT : Z;
  HORDE_VARIANT : Z;
  HOUSE_VARIANT : Z;
  KOTH_VARIANT : Z;
  RACE_VARIANT : Z;
  THREECHECK_VARIANT : Z;
  (* #ifdef switches of the build *)
  ATOMIC : bool;
  HORDE : bool;
  HOUSE : bool;
  KOTH : bool;
  RACE : bool;
  THREECHECK : bool;
  (* position.h *)
  Position_set : Position -> string -> Z -> Thread -> Position;
  Position_do_move : Position -> Move -> StateInfo -> bool -> Position * StateInfo;
  Position_gives_check : Position -> Move -> CheckInfo -> bool;
  Position_flip : Position -> Position;
  Position_show : Position -> string;
  CheckInfo_of : Position -> CheckInfo;
  StateInfo_new : StateInfo;
  (* uci.h, evaluate.h, misc.h, thread.h *)
  UCI_to_move : Position -> string -> Move;
  Options_show : gmap string string -> string;
  Eval_trace : Position -> string;
  engine_info : bool -> string;
  Threads_main : Thread;
  (* [now ()] when [k] extractions have been attempted on the command's stream *)
  now : nat -> Z
}.

Inductive Color : Type := WHITE | BLACK.

Definition Color_eqb (a b : Color) : bool :=
  match a, b with
  | WHITE, WHITE | BLACK, BLACK => true
  | _, _ => false
  end.

(** Modelled from the spec: [Search::LimitsType] of [search.h], which is not
    under src/.  Per side remaining time and increment, moves-to-go, depth,
    nodes, movetime, mate, the infinite and ponder flags, the restricted
    search-move list and the start timestamp; every numeric field starts at
    zero.  [nodes] and [startTime] are 64-bit, the others are [int]. *)
Record LimitsType `{Engine} : Type := mkLimits {
  searchmoves : list Move;
  time : Color -> Z;
  inc : Color -> Z;
  npmsec : Z;
  movestogo : Z;
  depth : Z;
  movetime : Z;
  mate : Z;
  infinite : Z;
  ponder : Z;
  nodes : Z;
  startTime : Z
}.

Section Model.
Context `{E : Engine}.

Definition LimitsType_new : LimitsType :=
  {| searchmoves := []; time := fun _ => 0; inc := fun _ => 0; npmsec := 0;
     movestogo := 0; depth := 0; movetime := 0; mate := 0; infinite := 0;
     ponder := 0; nodes := 0; startTime := 0 |}.

Definition set_searchmoves (v : list Move) (l : LimitsType) : LimitsType :=
  mkLimits _ v (time l) (inc l) (npmsec l) (movestogo l) (depth l) (movetime l)
    (mate l) (infinite l) (ponder l) (nodes l) (startTime l).
Definition set_time (c : Color) (v : Z) (l : LimitsType) : LimitsType :=
  mkLimits _ (searchmoves l) (fun c' => if Color_eqb c' c then v else time l c')
    (inc l) (npmsec l) (movestogo l) (depth l) (movetime l)
    (mate l) (infinite l) (ponder l) (nodes l) (startTime l).
Definition set_inc (c : Color) (v : Z) (l : LimitsType) : LimitsType :=
  mkLimits _ (searchmoves l) (time l) (fun c' => if Color_eqb c' c then v else inc l c')
    (npmsec l) (movestogo l) (depth l) (movetime l)
    (mate l) (infinite l) (ponder l) (nodes l) (startTime l).
Definition set_movestogo (v : Z) (l : LimitsType) : LimitsType :=
  mkLimits _ (searchmoves l) (time l) (inc l) (npmsec l) v (depth l) (movetime l)
    (mate l) (infinite l) (ponder l) (nodes l) (startTime l).
Definition set_depth (v : Z) (l : LimitsType) : LimitsType :=
  mkLimits _ (searchmoves l) (time l) (inc l) (npmsec l) (movestogo l) v (movetime l)
    (mate l) (infinite l) (ponder l) (nodes l) (startTime l).
Definition set_movetime (v : Z) (l : LimitsType) : LimitsType :=
  mkLimits _ (searchmoves l) (time l) (inc l) (npmsec l) (movestogo l) (depth l) v
    (mate l) (infinite l) (ponder l) (nodes l) (startTime l).
Definition set_mate (v : Z) (l : LimitsType) : LimitsType :=
  mkLimits _ (searchmoves l) (time l) (inc l) (npmsec l) (movestogo l) (depth l)
    (movetime l) v (infinite l) (ponder l) (nodes l) (startTime l).
Definition set_infinite (v : Z) (l : LimitsType) : LimitsType :=
  mkLimits _ (searchmoves l) (time l) (inc l) (npmsec l) (movestogo l) (depth l)
    (movetime l) (mate l) v (ponder l) (nodes l) (startTime l).
Definition set_ponder (v : Z) (l : LimitsType) : LimitsType :=
  mkLimits _ (searchmoves l) (time l) (inc l) (npmsec l) (movestogo l) (depth l)
    (movetime l) (mate l) (infinite l) v (nodes l) (startTime l).
Definition set_nodes (v : Z) (l : LimitsType) : LimitsType :=
  mkLimits _ (searchmoves l) (time l) (inc l) (npmsec l) (movestogo l) (depth l)
    (movetime l) (mate l) (infinite l) (ponder l) v (startTime l).
Definition set_startTime (v : Z) (l : LimitsType) : LimitsType :=
  mkLimits _ (searchmoves l) (time l) (inc l) (npmsec l) (movestogo l) (depth l)
    (movetime l) (mate l) (infinite l) (ponder l) (nodes l) v.

(** Calls into the worker subsystem and the search, recorded in order; their
    effects belong to the collaborators. *)
Inductive Call : Type :=
  | start_searching (resume : bool)
  | start_thinking (p : Position) (l : LimitsType) (states : option (list StateInfo))
  | Search_clear.

(** The globals the interpreter reads and writes.  [SetupStates] is a
    pointer to a stack ([None] is the null pointer, the head of the list is
    the top); [cout] holds one entry per [sync_cout << ... << sync_endl]
    block, oldest first. *)
Record World : Type := mkWorld {
  Options : gmap string string;
  pos : Position;
  SetupStates : option (list StateInfo);
  Signals_stop : bool;
  Signals_stopOnPonderhit : bool;
  Limits : LimitsType;
  Time_availableNodes : Z;
  cout : list string;
  calls : list Call
}.

Definition set_Options (v : gmap string string) (w : World) : World :=
  mkWorld v (pos w) (SetupStates w) (Signals_stop w) (Signals_stopOnPonderhit w)
    (Limits w) (Time_availableNodes w) (cout w) (calls w).
Definition set_pos (v : Position) (w : World) : World :=
  mkWorld (Options w) v (SetupStates w) (Signals_stop w) (Signals_stopOnPonderhit w)
    (Limits w) (Time_availableNodes w) (cout w) (calls w).
Definition set_SetupStates (v : option (list StateInfo)) (w : World) : World :=
  mkWorld (Options w) (pos w) v (Signals_stop w) (Signals_stopOnPonderhit w)
    (Limits w) (Time_availableNodes w) (cout w) (calls w).
Definition set_Signals_stop (v : bool) (w : World) : World :=
  mkWorld (Options w) (pos w) (SetupStates w) v (Signals_stopOnPonderhit w)
    (Limits w) (Time_availableNodes w) (cout w) (calls w).
Definition set_Limits (v : LimitsType) (w : World) : World :=
  mkWorld (Options w) (pos w) (SetupStates w) (Signals_stop w)
    (Signals_stopOnPonderhit w) v (Time_availableNodes w) (cout w) (calls w).
Definition set_Time_availableNodes (v : Z) (w : World) : World :=
  mkWorld (Options w) (pos w) (SetupStates w) (Signals_stop w)
    (Signals_stopOnPonderhit w) (Limits w) v (cout w) (calls w).
(** [sync_cout << s << sync_endl] *)
Definition sync_cout (s : string) (w : World) : World :=
  mkWorld (Options w) (pos w) (SetupStates w) (Signals_stop w)
    (Signals_stopOnPonderhit w) (Limits w) (Time_availableNodes w)
    (cout w ++ [s]) (calls w).
Definition call (c : Call) (w : World) : World :=
  mkWorld (Options w) (pos w) (SetupStates w) (Signals_stop w)
    (Signals_stopOnPonderhit w) (Limits w) (Time_availableNodes w)
    (cout w) (calls w ++ [c]).

(** ** position *)

(** FEN string of the initial position, normal chess *)
Definition StartFEN : string :=
  "rnbqkbnr/pppppppp/8/8/8/8/PPPPPPPP/RNBQKBNR w KQkq - 0 1".

(** FEN string of the initial position, horde variant *)
Definition StartFENHorde : string :=
  "rnbqkbnr/pppppppp/8/1PP2PP1/PPPPPPPP/PPPPPPPP/PPPPPPPP/PPPPPPPP w kq - 0 1".

(** Modelled from the spec: the Option Registry ([UCI::OptionsMap] of
    [uci.h], not under src/) is a mapping from option name to a current
    value that is a string whatever the option's logical type; a consumer
    that wants a boolean coerces it.  [Options_bool o name] is the source's
    [if (Options[name])], as a lookup: that [operator[]] of a [std::map]
    inserts a name it does not find is not modelled. *)
Definition Options_bool (o : gmap string string) (name : string) : bool :=
  match o !! name with
  | Some v => String.eqb v "true"
  | None => false
  end.

(** Lines 44-70: the variant flags, from the options as they are now. *)
Definition position_variant (o : gmap string string) : Z :=
  let variant := STANDARD_VARIANT in
  let variant :=
    if Options_bool o "UCI_Chess960" then Z.lor variant CHESS960_VARIANT else variant in
  let variant :=
    if ATOMIC && Options_bool o "UCI_Atomic" then Z.lor variant ATOMIC_VARIANT else variant in
  let variant :=
    if HORDE && Options_bool o "UCI_Horde" then Z.lor variant HORDE_VARIANT else variant in
  let variant :=
    if HOUSE && Options_bool o "UCI_House" then Z.lor variant HOUSE_VARIANT else variant in
  let variant :=
    if KOTH && Options_bool o "UCI_KingOfTheHill" then Z.lor variant KOTH_VARIANT else variant in
  let variant :=
    if RACE && Options_bool o "UCI_Race" then Z.lor variant RACE_VARIANT else variant in
  let variant :=
    if THREECHECK && Options_bool o "UCI_3Check" then Z.lor variant THREECHECK_VARIANT else variant in
  variant.

(** Lines 75-79 *)
Definition startpos_fen (variant : Z) : string :=
  if HORDE then
    if Z.land variant HORDE_VARIANT =? 0 then StartFEN else StartFENHorde
  else StartFEN.

(** [while (is >> token && token != "moves") fen += token + " ";] *)
Fixpoint fen_loop (n : nat) (iss : istream) (fen : string) : option (string * istream) :=
  match n with
  | O => None
  | S n' =>
      match read_string iss with
      | (Some token, iss') =>
          if String.eqb token "moves" then Some (fen, iss')
          else fen_loop n' iss' (fen +:+ token +:+ " ")
      | (None, iss') => Some (fen, iss')
      end
  end.

(** Lines 92-96: the move list.  Each parsed move pushes a fresh [StateInfo]
    that [do_move] fills in. *)
Fixpoint moves_loop (n : nat) (iss : istream) (p : Position) (st : list StateInfo)
  : option (Position * list StateInfo) :=
  match n with
  | O => None
  | S n' =>
      match read_string iss with
      | (Some token, iss') =>
          let m := UCI_to_move p token in
          if decide (m = MOVE_NONE) then Some (p, st)
          else
            let (p', si) :=
              Position_do_move p m StateInfo_new
                (Position_gives_check p m (CheckInfo_of p)) in
            moves_loop n' iss' p' (si :: st)
      | (None, _) => Some (p, st)
      end
  end.

(** [position(pos, is)].  [None] only if a loop ran out of fuel. *)
Definition position (w : World) (iss : istream) : option World :=
  let fuel := S (String.length (buf iss)) in
  let variant := position_variant (Options w) in
  let (r, iss) := read_string iss in
  let token := default EmptyString r in
  let prefix : option (option (string * istream)) :=
    if String.eqb token "startpos" then
      let fen := startpos_fen variant in
      let (_, iss) := read_string iss in (* Consume "moves" token if any *)
      Some (Some (fen, iss))
    else if String.eqb token "fen" then
      match fen_loop fuel iss EmptyString with
      | Some fi => Some (Some fi)
      | None => None
      end
    else Some None in
  match prefix with
  | None => None
  | Some None => Some w
  | Some (Some (fen, iss)) =>
      let p := Position_set (pos w) fen variant Threads_main in
      match moves_loop fuel iss p [] with
      | Some (p', st) => Some (set_SetupStates (Some st) (set_pos p' w))
      | None => None
      end
  end.

(** ** setoption *)

(** [string(" ", s.empty() ? 0 : 1)] *)
Definition space_unless_empty (s : string) : string :=
  match s with
  | EmptyString => EmptyString
  | _ => " "
  end.

(** [while (is >> token && token != "value") name += ... + token;] *)
Fixpoint name_loop (n : nat) (iss : istream) (name : string) : option (string * istream) :=
  match n with
  | O => None
  | S n' =>
      match read_string iss with
      | (Some token, iss') =>
          if String.eqb token "value" then Some (name, iss')
          else name_loop n' iss' (name +:+ (space_unless_empty name +:+ token))
      | (None, iss') => Some (name, iss')
      end
  end.

(** [while (is >> token) value += ... + token;] *)
Fixpoint value_loop (n : nat) (iss : istream) (value : string) : option (string * istream) :=
  match n with
  | O => None
  | S n' =>
      match read_string iss with
      | (Some token, iss') =>
          value_loop n' iss' (value +:+ (space_unless_empty value +:+ token))
      | (None, iss') => Some (value, iss')
      end
  end.

(** Lines 116-119, with [Options.count(name)] a lookup and
    [Options[name] = value] an assignment to an existing entry. *)
Definition apply_option (name value : string) (w : World) : World :=
  match Options w !! name with
  | Some _ => set_Options (<[name := value]> (Options w)) w
  | None => sync_cout ("No such option: " +:+ name) w
  end.

(** [setoption(is)] *)
Definition setoption (w : World) (iss : istream) : option World :=
  let fuel := S (String.length (buf iss)) in
  let (_, iss) := read_string iss in (* Consume "name" token *)
  match name_loop fuel iss EmptyString with
  | None => None
  | Some (name, iss) =>
      match value_loop fuel iss EmptyString with
      | None => None
      | Some (value, _) => Some (apply_option name value w)
      end
  end.

(** ** go *)

(** Store what an integer extraction produced, if it produced anything. *)
Definition store (set : Z -> LimitsType -> LimitsType) (v : option Z) (l : LimitsType)
  : LimitsType :=
  match v with
  | Some z => set z l
  | None => l
  end.

(** Lines 136-137: [while (is >> token) limits.searchmoves.push_back(...)] *)
Fixpoint searchmoves_loop (n : nat) (p : Position) (iss : istream) (l : LimitsType)
  : option (LimitsType * istream) :=
  match n with
  | O => None
  | S n' =>
      match read_string iss with
      | (Some token, iss') =>
          searchmoves_loop n' p iss'
            (set_searchmoves (searchmoves l ++ [UCI_to_move p token]) l)
      | (None, iss') => Some (l, iss')
      end
  end.

(** Lines 134-149: the outer [while (is >> token)] and its chain of tests. *)
Fixpoint go_loop (n : nat) (p : Position) (iss : istream) (l : LimitsType)
  : option (LimitsType * istream) :=
  match n with
  | O => None
  | S n' =>
      match read_string iss with
      | (None, iss') => Some (l, iss')
      | (Some token, iss') =>
          if String.eqb token "searchmoves" then
            match searchmoves_loop n' p iss' l with
            | Some (l', iss'') => go_loop n' p iss'' l'
            | None => None
            end
          else if String.eqb token "wtime" then
            let (v, iss'') := read_int INT_MIN INT_MAX iss' in
            go_loop n' p iss'' (store (set_time WHITE) v l)
          else if String.eqb token "btime" then
            let (v, iss'') := read_int INT_MIN INT_MAX iss' in
            go_loop n' p iss'' (store (set_time BLACK) v l)
          else if String.eqb token "winc" then
            let (v, iss'') := read_int INT_MIN INT_MAX iss' in
            go_loop n' p iss'' (store (set_inc WHITE) v l)
          else if String.eqb token "binc" then
            let (v, iss'') := read_int INT_MIN INT_MAX iss' in
            go_loop n' p iss'' (store (set_inc BLACK) v l)
          else if String.eqb token "movestogo" then
            let (v, iss'') := read_int INT_MIN INT_MAX iss' in
            go_loop n' p iss'' (store set_movestogo v l)
          else if String.eqb token "depth" then
            let (v, iss'') := read_int INT_MIN INT_MAX iss' in
            go_loop n' p iss'' (store set_depth v l)
          else if String.eqb token "nodes" then
            let (v, iss'') := read_int INT64_MIN INT64_MAX iss' in
            go_loop n' p iss'' (store set_nodes v l)
          else if String.eqb token "movetime" then
            let (v, iss'') := read_int INT_MIN INT_MAX iss' in
            go_loop n' p iss'' (store set_movetime v l)
          else if String.eqb token "mate" then
            let (v, iss'') := read_int INT_MIN INT_MAX iss' in
            go_loop n' p iss'' (store set_mate v l)
          else if String.eqb token "infinite" then
            go_loop n' p iss' (set_infinite 1 l)
          else if String.eqb token "ponder" then
            go_loop n' p iss' (set_ponder 1 l)
          else go_loop n' p iss' l
      end
  end.

(** Lines 129-149: the limits [go] hands to [start_thinking], and the stream
    as the parse leaves it. *)
Definition go_limits (p : Position) (iss : istream) : option (LimitsType * istream) :=
  let limits := LimitsType_new in
  let limits := set_startTime (now (nreads iss)) limits in (* As early as possible! *)
  go_loop (S (String.length (buf iss))) p iss limits.

(** [go(pos, is)] *)
Definition go (w : World) (iss : istream) : option World :=
  match go_limits (pos w) iss with
  | Some (limits, _) => Some (call (start_thinking (pos w) limits (SetupStates w)) w)
  | None => None
  end.

(** ** command *)

Definition command (w : World) (cmd : string) : option World :=
  let iss := istringstream cmd in
  let token := EmptyString in (* getline() could return empty or blank line *)
  let (r, iss) := read_string iss in
  let token := default token r in
  if String.eqb token "quit"
     || String.eqb token "stop"
     || (String.eqb token "ponderhit" && Signals_stopOnPonderhit w)
  then
    Some (call (start_searching true) (set_Signals_stop true w)) (* Could be sleeping *)
  else if String.eqb token "ponderhit" then
    Some (set_Limits (set_ponder 0 (Limits w)) w) (* Switch to normal search *)
  else if String.eqb token "uci" then
    Some (sync_cout ("id name " +:+ engine_info true
                     +:+ String "010" (Options_show (Options w))
                     +:+ String "010" "uciok") w)
  else if String.eqb token "ucinewgame" then
    Some (set_Time_availableNodes 0 (call Search_clear w))
  else if String.eqb token "isready" then Some (sync_cout "readyok" w)
  else if String.eqb token "go" then go w iss
  else if String.eqb token "position" then position w iss
  else if String.eqb token "setoption" then setoption w iss
  (* Additional custom non-UCI commands, useful for debugging *)
  else if String.eqb token "flip" then Some (set_pos (Position_flip (pos w)) w)
  else if String.eqb token "d" then Some (sync_cout (Position_show (pos w)) w)
  else if String.eqb token "eval" then Some (sync_cout (Eval_trace (pos w)) w)
  else Some (sync_cout ("Unknown command: " +:+ cmd) w).

(** ** Reference notions over word lists *)

(** The words before the first occurrence of [k], and those after it. *)
Fixpoint before (k : string) (ws : list string) : list string :=
  match ws with
  | [] => []
  | t :: ws' => if String.eqb t k then [] else t :: before k ws'
  end.

Fixpoint after (k : string) (ws : list string) : list string :=
  match ws with
  | [] => []
  | t :: ws' => if String.eqb t k then ws' else after k ws'
  end.

(** Replaying a move list on the words themselves. *)
Fixpoint replay (p : Position) (st : list StateInfo) (ws : list string)
  : Position * list StateInfo :=
  match ws with
  | [] => (p, st)
  | t :: ws' =>
      let m := UCI_to_move p t in
      if decide (m = MOVE_NONE) then (p, st)
      else
        let (p', si) :=
          Position_do_move p m StateInfo_new
            (Position_gives_check p m (CheckInfo_of p)) in
        replay p' (si :: st) ws'
  end.

(** [applies p ws p' sts]: every word of [ws], in order, parses to a move in
    the position reached so far and is made; [p'] is the position reached
    and [sts] the snapshots the moves filled in, first move first. *)
Inductive applies : Position -> list string -> Position -> list StateInfo -> Prop :=
  | applies_nil p : applies p [] p []
  | applies_cons p t ws p1 si p' sts :
      UCI_to_move p t <> MOVE_NONE ->
      Position_do_move p (UCI_to_move p t) StateInfo_new
        (Position_gives_check p (UCI_to_move p t) (CheckInfo_of p)) = (p1, si) ->
      applies p1 ws p' sts ->
      applies p (t :: ws) p' (si :: sts).

(** The [go] keywords. *)
Definition go_keywords : list string :=
  ["searchmoves"; "wtime"; "btime"; "winc"; "binc"; "movestogo"; "depth";
   "nodes"; "movetime"; "mate"; "infinite"; "ponder"].

(** The FEN text the [fen] branch builds from the words before [moves]:
    each followed by one space. *)
Fixpoint fen_text (ws : list string) : string :=
  match ws with
  | [] => EmptyString
  | t :: ws' => t +:+ " " +:+ fen_text ws'
  end.

(** Set the position from [fen] under [variant], start an empty stack and
    replay [mvs]. *)
Definition install (w : World) (fen : string) (variant : Z) (mvs : list string)
  : World :=
  let (p', st) := replay (Position_set (pos w) fen variant Threads_main) [] mvs in
  set_SetupStates (Some st) (set_pos p' w).

(** The variant options as a table: is the variant compiled in, the option
    that enables it, the bit it contributes. *)
Definition variant_table : list (bool * string * Z) :=
  [ (true, "UCI_Chess960", CHESS960_VARIANT);
    (ATOMIC, "UCI_Atomic", ATOMIC_VARIANT);
    (HORDE, "UCI_Horde", HORDE_VARIANT);
    (HOUSE, "UCI_House", HOUSE_VARIANT);
    (KOTH, "UCI_KingOfTheHill", KOTH_VARIANT);
    (RACE, "UCI_Race", RACE_VARIANT);
    (THREECHECK, "UCI_3Check", THREECHECK_VARIANT) ].

(** The flags as the specification words them: start from the standard
    variant and OR in one bit per enabled option. *)
Definition variant_flags (o : gmap string string) : Z :=
  fold_left
    (fun acc '(compiled, name, bit) =>
       if compiled && Options_bool o name then Z.lor acc bit else acc)
    variant_table STANDARD_VARIANT.

(** [position] on the words of its input: what the handler does, read off
    the list of pending words. *)
Definition position_words (w : World) (ws : list string) : World :=
  let variant := position_variant (Options w) in
  match ws with
  | [] => w
  | t :: rest =>
      if String.eqb t "startpos" then
        install w (startpos_fen variant) variant (tail rest)
      else if String.eqb t "fen" then
        install w (fen_text (before "moves" rest)) variant (after "moves" rest)
      else w
  end.

(** The option name and value [setoption] reads, from the words of its
    input. *)
Definition option_name (ws : list string) : string :=
  join " " (before "value" (tail ws)).

Definition option_value (ws : list string) : string :=
  join " " (after "value" (tail ws)).

(** A well-formed argument of [position]: [startpos] or [fen] and the words
    of a FEN, then either nothing or the literal [moves] and a move list.
    [recognized variant ws fen mvs] gives the FEN it denotes and its move
    list. *)
Inductive recognized (variant : Z) : list string -> string -> list string -> Prop :=
  | recognized_startpos :
      recognized variant ["startpos"] (startpos_fen variant) []
  | recognized_startpos_moves mvs :
      recognized variant ("startpos" :: "moves" :: mvs) (startpos_fen variant) mvs
  | recognized_fen fs :
      ~ In "moves" fs ->
      recognized variant ("fen" :: fs) (fen_text fs) []
  | recognized_fen_moves fs mvs :
      ~ In "moves" fs ->
      recognized variant ("fen" :: fs ++ "moves" :: mvs) (fen_text fs) mvs.

(** One step of the accumulation both loops of [setoption] perform. *)
Definition add_word (acc t : string) : string :=
  acc +:+ (space_unless_empty acc +:+ t).

(** The first tokens [command] knows. *)
Definition commands : list string :=
  ["quit"; "stop"; "ponderhit"; "uci"; "ucinewgame"; "isready"; "go";
   "position"; "setoption"; "flip"; "d"; "eval"].

(** The keywords of [go] that take an integer: the field each one stores
    into and the range of the field's type. *)
Definition int_keywords : list (string * (Z -> LimitsType -> LimitsType) * (Z * Z)) :=
  [ ("wtime", set_time WHITE, (INT_MIN, INT_MAX));
    ("btime", set_time BLACK, (INT_MIN, INT_MAX));
    ("winc", set_inc WHITE, (INT_MIN, INT_MAX));
    ("binc", set_inc BLACK, (INT_MIN, INT_MAX));
    ("movestogo", set_movestogo, (INT_MIN, INT_MAX));
    ("depth", set_depth, (INT_MIN, INT_MAX));
    ("nodes", set_nodes, (INT64_MIN, INT64_MAX));
    ("movetime", set_movetime, (INT_MIN, INT_MAX));
    ("mate", set_mate, (INT_MIN, INT_MAX)) ].

End Model.

(** ** A small engine

    A concrete implementation of the collaborators, to run the interpreter
    on examples: a position is the FEN and flags it was set from and the
    moves made since; a word parses to a move when it has four characters
    and has not been played yet; the snapshot of a move records the move. *)
Definition toy_to_move (p : string * Z * list string) (t : string) : string :=
  if (String.length t =? 4)%nat && negb (bool_decide (t ∈ p.2)) then t else EmptyString.

Definition toy : Engine := {|
  Position := string * Z * list string;
  Move := string;
  StateInfo := string;
  CheckInfo := unit;
  Thread := unit;
  MOVE_NONE := EmptyString;
  STANDARD_VARIANT := 0;
  CHESS960_VARIANT := 1;
  ATOMIC_VARIANT := 2;
  HORDE_VARIANT := 4;
  HOUSE_VARIANT := 8;
  KOTH_VARIANT := 16;
  RACE_VARIANT := 32;
  THREECHECK_VARIANT := 64;
  ATOMIC := true;
  HORDE := true;
  HOUSE := true;
  KOTH := true;
  RACE := true;
  THREECHECK := true;
  Position_set := fun _ fen variant _ => (fen, variant, []);
  Position_do_move := fun p m _ _ => ((p.1.1, p.1.2, (p.2 ++ [m])%list), m);
  Position_gives_check := fun _ _ _ => false;
  Position_flip := fun p => p;
  Position_show := fun p => p.1.1;
  CheckInfo_of := fun _ => tt;
  StateInfo_new := EmptyString;
  UCI_to_move := toy_to_move;
  Options_show := fun _ => EmptyString;
  Eval_trace := fun _ => EmptyString;
  engine_info := fun _ => "Stockfish";
  Threads_main := tt;
  now := fun k => 1000 + Z.of_nat k
|}.

Definition toy_options : gmap string string :=
  <["Hash" := "16"]> (<["UCI_Chess960" := "false"]> (<["UCI_Atomic" := "false"]>
    (<["Some Long Name" := "x"]> ∅))).

Definition toy_start : Position (Engine := toy) := (EmptyString, 0, []).

Definition toy_world : World (E := toy) :=
  @mkWorld toy toy_options toy_start None false false (LimitsType_new (E := toy))
    0 [] [].

(** What is still to be read from a stream, as words, and an upper bound on
    the number of successful extractions it can still serve. *)
Definition pending (iss : istream) : list string :=
  if failbit iss then [] else words (buf iss).

Definition avail (iss : istream) : nat :=
  if failbit iss then O else String.length (buf iss).

(** A line with nothing but white space on it (the empty line included). *)
Fixpoint blank (s : string) : bool :=
  match s with
  | EmptyString => true
  | String c s' => isspace c && blank s'
  end.

(** No white space in [s]. *)
Fixpoint nospace (s : string) : bool :=
  match s with
  | EmptyString => true
  | String c s' => negb (isspace c) && nospace s'
  end.

(** [r] is empty or starts with white space: a word may end just before it. *)
Definition ends_word (r : string) : bool :=
  match r with
  | EmptyString => true
  | String c _ => isspace c
  end.

(** The word of [s], if it is one and not empty. *)
Definition word_of (s : string) : list string :=
  match s with
  | EmptyString => []
  | _ => [s]
  end.

(** Two streams that will serve the same words, and have been read equally
    often. *)
Definition same_input (iss1 iss2 : istream) : Prop :=
  pending iss1 = pending iss2 /\ nreads iss1 = nreads iss2.

(** A non-empty run of decimal digits. *)
Fixpoint all_digits (s : string) : bool :=
  match s with
  | EmptyString => true
  | String c s' => isdigit c && all_digits s'
  end.

Definition digits (s : string) : bool :=
  match s with
  | EmptyString => false
  | _ => all_digits s
  end.

(** The value of a word that is a whole decimal numeral, with an optional
    sign in front. *)
Definition numeral_value (t : string) : option Z :=
  match t with
  | EmptyString => None
  | String c t' =>
      if Ascii.eqb c "-" then
        if digits t' then Some (- digits_value 0 t') else None
      else if Ascii.eqb c "+" then
        if digits t' then Some (digits_value 0 t') else None
      else if digits t then Some (digits_value 0 t) else None
  end.

(** ** Stream facts *)

Lemma read_word_length s :
  String.length s =
  (String.length (fst (read_word s)) + String.length (snd (read_word s)))%nat.
Proof.
  induction s as [|c s IH]; simpl; [reflexivity|].
  destruct (isspace c); simpl; [reflexivity|].
  destruct (read_word s) as [w r]; simpl in *. lia.
Qed.

Lemma skipws_length s : (String.length (skipws s) <= String.length s)%nat.
Proof.
  induction s as [|c s IH]; simpl; [lia|].
  destruct (isspace c); simpl; lia.
Qed.

Lemma read_digits_length s :
  (String.length (snd (read_digits s)) <= String.length s)%nat.
Proof.
  induction s as [|c s IH]; simpl; [lia|].
  destruct (isdigit c); simpl; [|lia].
  destruct (read_digits s) as [d r]; simpl in *. lia.
Qed.

(** A word that starts at a non-blank character [c] is [c] followed by the
    rest of the run. *)
Lemma words_cons_nonspace c s :
  isspace c = false ->
  words (String c s) =
  String c (fst (read_word s)) :: words (snd (read_word s)).
Proof.
  revert c. induction s as [|c' s IH]; intros c Hc.
  - simpl. rewrite Hc. reflexivity.
  - change (words (String c (String c' s)))
      with (if isspace c then words (String c' s)
            else if starts_word (String c' s) then
              match words (String c' s) with
              | w :: ws => String c w :: ws
              | [] => [String c EmptyString]
              end
            else String c EmptyString :: words (String c' s)).
    rewrite Hc. cbn [starts_word read_word].
    destruct (isspace c') eqn:Hc'; cbn [negb fst snd].
    + reflexivity.
    + rewrite (IH c' Hc'). destruct (read_word s) as [w r]. reflexivity.
Qed.

(** [words] is what repeated extraction yields. *)
Lemma words_unfold s :
  words s =
  match read_word (skipws s) with
  | (EmptyString, _) => []
  | (w, r) => w :: words r
  end.
Proof.
  induction s as [|c s IH]; [reflexivity|].
  cbn [skipws]. destruct (isspace c) eqn:Hc.
  - cbn [words]. rewrite Hc. exact IH.
  - rewrite (words_cons_nonspace _ _ Hc). cbn [read_word]. rewrite Hc.
    destruct (read_word s) as [w r]. reflexivity.
Qed.

Lemma words_nonempty s : Forall (fun w => w <> EmptyString) (words s).
Proof.
  remember (String.length s) as n eqn:Hn.
  revert s Hn. induction n as [n IH] using lt_wf_ind. intros s Hn.
  rewrite words_unfold.
  pose proof (read_word_length (skipws s)) as Hl.
  pose proof (skipws_length s) as Hs.
  destruct (read_word (skipws s)) as [w r]; simpl in Hl.
  destruct w as [|c w]; [constructor|].
  constructor; [discriminate|].
  apply (IH (String.length r)); [simpl in Hl; lia | reflexivity].
Qed.

(** The one lemma the loops need: an extraction serves the first pending
    word and leaves the others pending; with nothing pending it fails and
    the stream stays failed. *)
Lemma read_string_pending iss :
  match pending iss with
  | [] =>
      exists iss', read_string iss = (None, iss') /\
        failbit iss' = true /\ nreads iss' = S (nreads iss)
  | t :: ts =>
      exists iss', read_string iss = (Some t, iss') /\
        pending iss' = ts /\ failbit iss' = false /\
        (avail iss' < avail iss)%nat /\ nreads iss' = S (nreads iss) /\
        t <> EmptyString
  end.
Proof.
  unfold pending, avail, read_string.
  destruct (failbit iss) eqn:Hf.
  - eexists; repeat split.
  - pose proof (words_nonempty (buf iss)) as Hne.
    rewrite words_unfold in Hne |- *.
    pose proof (read_word_length (skipws (buf iss))) as Hl.
    pose proof (skipws_length (buf iss)) as Hs.
    destruct (read_word (skipws (buf iss))) as [w r]; simpl in Hl.
    destruct w as [|c w].
    + eexists; repeat split.
    + eexists; split; [reflexivity|]. simpl in *.
      repeat split; try lia. inversion Hne; assumption.
Qed.

Lemma failed_pending iss : failbit iss = true -> pending iss = [].
Proof. unfold pending. intros ->. reflexivity. Qed.

Lemma read_int_digits_avail lo hi n neg s :
  (avail (snd (read_int_digits lo hi n neg s)) <= String.length s)%nat.
Proof.
  unfold read_int_digits, avail.
  pose proof (read_digits_length s) as Hl.
  destruct (read_digits s) as [ds r]; simpl in Hl.
  destruct ds; simpl; [lia|].
  repeat match goal with |- context [if ?b then _ else _] => destruct b end;
    simpl; lia.
Qed.

Lemma read_int_avail lo hi iss :
  (avail (snd (read_int lo hi iss)) <= avail iss)%nat.
Proof.
  unfold read_int.
  destruct (failbit iss) eqn:Hf; [unfold avail; simpl; rewrite Hf; lia|].
  unfold avail at 2. rewrite Hf.
  pose proof (skipws_length (buf iss)) as Hs.
  destruct (skipws (buf iss)) as [|c s'] eqn:Hsk; [unfold avail; simpl; lia|].
  simpl in Hs.
  destruct (Ascii.eqb c "-");
    [etransitivity; [apply read_int_digits_avail|lia]|].
  destruct (Ascii.eqb c "+");
    (etransitivity; [apply read_int_digits_avail|simpl; lia]).
Qed.

(** ** Integer extraction, seen from the pending words *)

Lemma append_nil_l' (b : string) : EmptyString +:+ b = b.
Proof. reflexivity. Qed.

Lemma append_cons' (x : ascii) (a b : string) :
  String x a +:+ b = String x (a +:+ b).
Proof. reflexivity. Qed.

Lemma isspace_not_digit c : isspace c = true -> isdigit c = false.
Proof.
  destruct c as [[] [] [] [] [] [] [] []]; vm_compute; congruence.
Qed.

Lemma isspace_not_sign c :
  isspace c = true -> Ascii.eqb c "-" = false /\ Ascii.eqb c "+" = false.
Proof.
  destruct c as [[] [] [] [] [] [] [] []]; vm_compute; intuition congruence.
Qed.

Lemma read_word_spec x :
  x = fst (read_word x) +:+ snd (read_word x) /\
  ends_word (snd (read_word x)) = true /\
  nospace (fst (read_word x)) = true.
Proof.
  induction x as [|c x IH]; [repeat split|].
  cbn [read_word]. destruct (isspace c) eqn:Hc.
  - cbn [fst snd ends_word nospace]. repeat split. exact Hc.
  - destruct (read_word x) as [w r]. cbn [fst snd] in *.
    destruct IH as (Hx & He & Hn). rewrite append_cons'. cbn [nospace].
    rewrite Hc, Hn. repeat split; [congruence|assumption].
Qed.

(** The first pending word sits at the front of the unread text, once the
    leading blanks are dropped. *)
Lemma words_cons_skipws s t rest :
  words s = t :: rest ->
  exists r, skipws s = t +:+ r /\ words r = rest /\
    ends_word r = true /\ nospace t = true /\ t <> EmptyString.
Proof.
  intros Hw. rewrite words_unfold in Hw.
  pose proof (read_word_spec (skipws s)) as (Hx & He & Hn).
  destruct (read_word (skipws s)) as [w r]. cbn [fst snd] in *.
  destruct w as [|c w]; [discriminate|]. injection Hw as <- <-.
  exists r. repeat split; try assumption. discriminate.
Qed.

Lemma skipws_head s :
  skipws s = EmptyString \/
  exists c s', skipws s = String c s' /\ isspace c = false.
Proof.
  induction s as [|c s IH]; [left; reflexivity|].
  cbn [skipws]. destruct (isspace c) eqn:Hc; [exact IH|].
  right. exists c, s. split; [reflexivity|exact Hc].
Qed.

Lemma words_nil_skipws s : words s = [] -> skipws s = EmptyString.
Proof.
  intros Hw. rewrite words_unfold in Hw.
  destruct (skipws_head s) as [Hs|(c & s' & Hs & Hc)]; [exact Hs|].
  rewrite Hs in Hw. cbn [read_word] in Hw. rewrite Hc in Hw.
  destruct (read_word s'); discriminate.
Qed.

Lemma words_nospace_app x r :
  nospace x = true -> ends_word r = true ->
  words (x +:+ r) = (word_of x ++ words r)%list.
Proof.
  intros Hx Hr. destruct x as [|c x]; [reflexivity|].
  cbn [nospace] in Hx. apply andb_true_iff in Hx as [Hc Hx].
  apply negb_true_iff in Hc. rewrite append_cons'.
  rewrite (words_cons_nonspace _ _ Hc). cbn [word_of app].
  revert Hx. clear Hc. revert c. induction x as [|c' x IH]; intros c Hx.
  - rewrite append_nil_l'. destruct r as [|cr r]; [reflexivity|].
    cbn [ends_word] in Hr. cbn [read_word]. rewrite Hr. reflexivity.
  - cbn [nospace] in Hx. apply andb_true_iff in Hx as [Hc' Hx].
    apply negb_true_iff in Hc'. rewrite append_cons'. cbn [read_word].
    rewrite Hc'. specialize (IH c' Hx).
    destruct (read_word (x +:+ r)) as [w r']. cbn [fst snd] in *.
    injection IH as -> ->. reflexivity.
Qed.

Lemma read_digits_app t r :
  ends_word r = true ->
  read_digits (t +:+ r) = (fst (read_digits t), snd (read_digits t) +:+ r).
Proof.
  intros Hr. induction t as [|c t IH].
  - rewrite append_nil_l'. destruct r as [|cr r]; [reflexivity|].
    cbn [ends_word] in Hr. cbn [read_digits].
    rewrite (isspace_not_digit _ Hr). reflexivity.
  - rewrite append_cons'. cbn [read_digits]. destruct (isdigit c); [|reflexivity].
    rewrite IH. destruct (read_digits t) as [d r']. reflexivity.
Qed.

Lemma read_digits_nospace t :
  nospace t = true -> nospace (snd (read_digits t)) = true.
Proof.
  induction t as [|c t IH]; [reflexivity|]. intros Hn. cbn [read_digits].
  destruct (isdigit c); [|exact Hn].
  cbn [nospace] in Hn. apply andb_true_iff in Hn as [_ Hn].
  specialize (IH Hn). destruct (read_digits t). exact IH.
Qed.

Lemma read_int_digits_app lo hi n neg t r :
  ends_word r = true ->
  read_int_digits lo hi n neg (t +:+ r) =
  (fst (read_int_digits lo hi n neg t),
   {| buf := buf (snd (read_int_digits lo hi n neg t)) +:+ r;
      failbit := failbit (snd (read_int_digits lo hi n neg t));
      nreads := n |}).
Proof.
  intros Hr. unfold read_int_digits. rewrite (read_digits_app _ _ Hr).
  destruct (read_digits t) as [ds r']. cbn [fst snd].
  destruct ds; [reflexivity|].
  repeat match goal with |- context [if ?b then _ else _] => destruct b end;
    reflexivity.
Qed.

Lemma read_int_digits_nospace lo hi n neg t :
  nospace t = true ->
  nospace (buf (snd (read_int_digits lo hi n neg t))) = true /\
  nreads (snd (read_int_digits lo hi n neg t)) = n.
Proof.
  intros Hn. unfold read_int_digits.
  pose proof (read_digits_nospace t Hn) as Hs.
  destruct (read_digits t) as [ds r']. cbn [snd] in Hs.
  destruct ds; [split; [exact Hs|reflexivity]|].
  repeat match goal with |- context [if ?b then _ else _] => destruct b end;
    (split; [exact Hs|reflexivity]).
Qed.

(** Reading an integer from a stream is reading it from the first pending
    word alone: the same value is stored, the stream fails in the same
    cases, and what the word leaves unread stays pending in front of the
    other words. *)
Lemma read_int_pending lo hi iss t rest :
  pending iss = t :: rest ->
  let it := read_int lo hi {| buf := t; failbit := false; nreads := nreads iss |} in
  exists iss',
    read_int lo hi iss = (fst it, iss') /\
    failbit iss' = failbit (snd it) /\
    nreads iss' = S (nreads iss) /\
    pending iss' =
      (if failbit (snd it) then [] else word_of (buf (snd it)) ++ rest)%list.
Proof.
  unfold pending. destruct (failbit iss) eqn:Hf; [discriminate|]. intros Hw.
  destruct (words_cons_skipws _ _ _ Hw) as (r & Hs & Hr & He & Hn & Hne).
  cbv zeta. unfold read_int. cbn [failbit buf nreads]. rewrite Hf, Hs.
  destruct t as [|c t]; [congruence|]. clear Hne.
  cbn [nospace] in Hn. apply andb_true_iff in Hn as [Hc Hn].
  apply negb_true_iff in Hc. cbn [skipws]. rewrite Hc, append_cons'.
  assert (Hgo : forall neg x, nospace x = true ->
    exists iss',
      read_int_digits lo hi (S (nreads iss)) neg (x +:+ r) =
      (fst (read_int_digits lo hi (S (nreads iss)) neg x), iss') /\
      failbit iss' = failbit (snd (read_int_digits lo hi (S (nreads iss)) neg x)) /\
      nreads iss' = S (nreads iss) /\
      (if failbit iss' then [] else words (buf iss')) =
      (if failbit (snd (read_int_digits lo hi (S (nreads iss)) neg x)) then []
       else word_of (buf (snd (read_int_digits lo hi (S (nreads iss)) neg x)))
            ++ rest)%list).
  { intros neg x Hx. rewrite (read_int_digits_app _ _ _ _ _ _ He).
    eexists. split; [reflexivity|]. cbn [failbit nreads buf].
    repeat split.
    destruct (read_int_digits_nospace lo hi (S (nreads iss)) neg x Hx) as [Hb _].
    destruct (failbit (snd (read_int_digits lo hi (S (nreads iss)) neg x)));
      [reflexivity|].
    rewrite (words_nospace_app _ _ Hb He), Hr. reflexivity. }
  destruct (Ascii.eqb c "-"); [apply Hgo; exact Hn|].
  destruct (Ascii.eqb c "+"); [apply Hgo; exact Hn|].
  rewrite <- append_cons'. apply Hgo. cbn [nospace]. rewrite Hc, Hn. reflexivity.
Qed.

Lemma read_int_pending_nil lo hi iss :
  pending iss = [] ->
  exists iss', read_int lo hi iss = (None, iss') /\
    failbit iss' = true /\ nreads iss' = S (nreads iss).
Proof.
  unfold pending, read_int. destruct (failbit iss).
  - intros _. eexists. repeat split.
  - intros Hw. rewrite (words_nil_skipws _ Hw). eexists. repeat split.
Qed.

Lemma read_digits_all t :
  all_digits t = true -> read_digits t = (t, EmptyString).
Proof.
  induction t as [|c t IH]; [reflexivity|]. cbn [all_digits read_digits].
  intros H. apply andb_true_iff in H as [-> H]. rewrite (IH H). reflexivity.
Qed.

Lemma read_int_digits_numeral (lo hi : Z) (n : nat) (neg : bool) (ds : string) :
  digits ds = true ->
  let v := if neg then - digits_value 0 ds else digits_value 0 ds in
  read_int_digits lo hi n neg ds =
  if v <? lo then (Some lo, {| buf := EmptyString; failbit := true; nreads := n |})
  else if hi <? v then (Some hi, {| buf := EmptyString; failbit := true; nreads := n |})
  else (Some v, {| buf := EmptyString; failbit := false; nreads := n |}).
Proof.
  intros Hd. cbv zeta. unfold read_int_digits.
  destruct ds as [|c ds]; [discriminate|]. cbn [digits] in Hd.
  rewrite (read_digits_all _ Hd). reflexivity.
Qed.

(** Reading a whole numeral: the value if it fits, else the nearest bound
    and a failed stream. *)
Lemma read_int_numeral (lo hi : Z) (n : nat) (t : string) (v : Z) :
  nospace t = true -> numeral_value t = Some v ->
  read_int lo hi {| buf := t; failbit := false; nreads := n |} =
  if v <? lo then (Some lo, {| buf := EmptyString; failbit := true; nreads := S n |})
  else if hi <? v then (Some hi, {| buf := EmptyString; failbit := true; nreads := S n |})
  else (Some v, {| buf := EmptyString; failbit := false; nreads := S n |}).
Proof.
  intros Hn Hv. unfold read_int. cbn [failbit buf nreads].
  destruct t as [|c t]; [discriminate|].
  cbn [nospace] in Hn. apply andb_true_iff in Hn as [Hc _].
  apply negb_true_iff in Hc. cbn [skipws]. rewrite Hc.
  unfold numeral_value in Hv.
  destruct (Ascii.eqb c "-").
  { destruct (digits t) eqn:Hd; [|discriminate]. injection Hv as <-.
    apply (read_int_digits_numeral lo hi (S n) true t Hd). }
  destruct (Ascii.eqb c "+").
  { destruct (digits t) eqn:Hd; [|discriminate]. injection Hv as <-.
    apply (read_int_digits_numeral lo hi (S n) false t Hd). }
  destruct (digits (String c t)) eqn:Hd; [|discriminate]. injection Hv as <-.
  apply (read_int_digits_numeral lo hi (S n) false (String c t) Hd).
Qed.

Lemma pending_cons_nospace iss t rest :
  pending iss = t :: rest -> nospace t = true.
Proof.
  unfold pending. destruct (failbit iss); [discriminate|]. intros Hw.
  destruct (words_cons_skipws _ _ _ Hw) as (r & _ & _ & _ & Hn & _). exact Hn.
Qed.

(** ** Words of a concatenation *)

Lemma words_cons_eq c s :
  words (String c s) =
  if isspace c then words s
  else if starts_word s then
    match words s with
    | w :: ws => String c w :: ws
    | [] => [String c EmptyString]
    end
  else String c EmptyString :: words s.
Proof. reflexivity. Qed.

Lemma words_app_ends a r :
  ends_word r = true -> words (a +:+ r) = (words a ++ words r)%list.
Proof.
  intros Hr. induction a as [|c a IH]; [reflexivity|].
  rewrite append_cons', !words_cons_eq. destruct (isspace c) eqn:Hc; [exact IH|].
  destruct a as [|c' a].
  - rewrite append_nil_l'. destruct r as [|cr r]; [reflexivity|].
    cbn [ends_word] in Hr. cbn [starts_word]. rewrite Hr. reflexivity.
  - rewrite append_cons' in IH |- *. cbn [starts_word].
    destruct (isspace c') eqn:Hc'; cbn [negb].
    + rewrite IH. reflexivity.
    + rewrite IH. rewrite (words_cons_nonspace c' a Hc'). reflexivity.
Qed.

(** Words joined with single spaces split back into the same words. *)
Lemma words_join ws :
  Forall (fun t => words t = [t]) ws -> words (join " " ws) = ws.
Proof.
  induction 1 as [|t ws Ht Hws IH]; [reflexivity|].
  destruct ws as [|t2 ws]; [exact Ht|].
  change (join " " (t :: t2 :: ws))
    with (t +:+ String " " (join " " (t2 :: ws))).
  rewrite words_app_ends by reflexivity.
  rewrite Ht. change (words (String " " (join " " (t2 :: ws))))
    with (words (join " " (t2 :: ws))). rewrite IH. reflexivity.
Qed.

Lemma isdigit_not_space_or_sign d :
  isdigit d = true ->
  isspace d = false /\ Ascii.eqb d "-" = false /\ Ascii.eqb d "+" = false.
Proof.
  destruct d as [[] [] [] [] [] [] [] []]; vm_compute; intuition congruence.
Qed.

Lemma read_digits_app_nondigit ds c x :
  all_digits ds = true -> isdigit c = false ->
  read_digits (ds +:+ String c x) = (ds, String c x).
Proof.
  intros Hd Hc. induction ds as [|d ds IH].
  - rewrite append_nil_l'. cbn [read_digits]. rewrite Hc. reflexivity.
  - cbn [all_digits] in Hd. apply andb_true_iff in Hd as [Hd Hds].
    rewrite append_cons'. cbn [read_digits]. rewrite Hd, (IH Hds). reflexivity.
Qed.

(** Reading a word that starts with digits and goes on with something
    else: the digits are the value, the rest of the word stays unread. *)
Lemma read_int_numeral_prefix (lo hi : Z) (n : nat) (ds : string) (c : ascii) (x : string) :
  digits ds = true -> isdigit c = false ->
  lo <= digits_value 0 ds <= hi ->
  read_int lo hi {| buf := ds +:+ String c x; failbit := false; nreads := n |} =
  (Some (digits_value 0 ds),
   {| buf := String c x; failbit := false; nreads := S n |}).
Proof.
  intros Hd Hc Hrange. destruct ds as [|d ds]; [discriminate|].
  cbn [digits] in Hd. pose proof Hd as Hall.
  cbn [all_digits] in Hd. apply andb_true_iff in Hd as [Hd _].
  destruct (isdigit_not_space_or_sign d Hd) as (Hsp & Hm & Hpl).
  unfold read_int. cbn [failbit buf nreads]. rewrite append_cons'.
  cbn [skipws]. rewrite Hsp, Hm, Hpl. rewrite <- append_cons'.
  unfold read_int_digits. rewrite (read_digits_app_nondigit _ _ _ Hall Hc).
  destruct (Z.ltb_spec (digits_value 0 (String d ds)) lo); [lia|].
  destruct (Z.ltb_spec hi (digits_value 0 (String d ds))); [lia|]. reflexivity.
Qed.

(** ** The loops of [position], on the pending words *)

Section Proofs.
Context `{E : Engine}.

Lemma append_nil_l (b : string) : EmptyString +:+ b = b.
Proof. reflexivity. Qed.

Lemma append_cons (x : ascii) (a b : string) :
  String x a +:+ b = String x (a +:+ b).
Proof. reflexivity. Qed.

Lemma append_assoc3 (a b c : string) : (a +:+ b) +:+ c = a +:+ (b +:+ c).
Proof.
  induction a as [|x a IH]; [reflexivity|]. rewrite !append_cons. congruence.
Qed.

Lemma append_empty_r (a : string) : a +:+ EmptyString = a.
Proof.
  induction a as [|x a IH]; [reflexivity|]. rewrite append_cons. congruence.
Qed.

Lemma fen_loop_pending ws : forall iss n acc,
  pending iss = ws -> (avail iss < n)%nat ->
  exists iss',
    fen_loop n iss acc = Some (acc +:+ fen_text (before "moves" ws), iss') /\
    pending iss' = after "moves" ws /\ (avail iss' <= avail iss)%nat.
Proof.
  induction ws as [|t ws IH]; intros iss n acc Hp Hn;
    (destruct n as [|n]; [lia|]); pose proof (read_string_pending iss) as Hr;
    rewrite Hp in Hr; cbn [fen_loop before after fen_text].
  - destruct Hr as (iss' & -> & Hf & _). exists iss'.
    rewrite append_empty_r, (failed_pending _ Hf).
    unfold avail. rewrite Hf. repeat split; lia.
  - destruct Hr as (iss' & -> & Hp' & _ & Hlt & _).
    destruct (String.eqb t "moves").
    + exists iss'. rewrite append_empty_r. repeat split; [assumption|lia].
    + destruct (IH iss' n (acc +:+ t +:+ " ") Hp' ltac:(lia))
        as (iss'' & -> & Hp'' & Hle).
      exists iss''. cbn [fen_text]. rewrite !append_assoc3.
      repeat split; [assumption|lia].
Qed.

Lemma moves_loop_pending ws : forall iss n p st,
  pending iss = ws -> (avail iss < n)%nat ->
  moves_loop n iss p st = Some (replay p st ws).
Proof.
  induction ws as [|t ws IH]; intros iss n p st Hp Hn;
    (destruct n as [|n]; [lia|]); pose proof (read_string_pending iss) as Hr;
    rewrite Hp in Hr; cbn [moves_loop replay].
  - destruct Hr as (iss' & -> & _). reflexivity.
  - destruct Hr as (iss' & -> & Hp' & _ & Hlt & _).
    destruct (decide (UCI_to_move p t = MOVE_NONE)); [reflexivity|].
    destruct (Position_do_move _ _ _ _) as [p' si].
    apply IH; [assumption|lia].
Qed.

Lemma avail_le_length iss : (avail iss <= String.length (buf iss))%nat.
Proof. unfold avail. destruct (failbit iss); lia. Qed.

(** [position] never runs out of fuel, and does what [position_words] says
    on the pending words. *)
Lemma position_pending w iss :
  position w iss = Some (position_words w (pending iss)).
Proof.
  unfold position, position_words.
  pose proof (avail_le_length iss) as Hfuel.
  pose proof (read_string_pending iss) as Hr.
  destruct (pending iss) as [|t rest].
  - destruct Hr as (iss' & -> & _). reflexivity.
  - destruct Hr as (iss1 & -> & Hp1 & _ & Hlt & _).
    change (default EmptyString (Some t)) with t.
    destruct (String.eqb t "startpos").
    + pose proof (read_string_pending iss1) as Hr2. rewrite Hp1 in Hr2.
      unfold install. destruct rest as [|t2 rest2].
      * destruct Hr2 as (iss2 & -> & Hf2 & _). cbv beta iota zeta.
        rewrite (moves_loop_pending [] iss2);
          [|apply failed_pending; assumption|unfold avail; rewrite Hf2; lia].
        cbn [tail]. destruct (replay _ _ _). reflexivity.
      * destruct Hr2 as (iss2 & -> & Hp2 & _ & Hlt2 & _). cbv beta iota zeta.
        rewrite (moves_loop_pending rest2 iss2); [|assumption|lia].
        cbn [tail]. destruct (replay _ _ _). reflexivity.
    + destruct (String.eqb t "fen"); [|reflexivity].
      destruct (fen_loop_pending rest iss1 (S (String.length (buf iss))) EmptyString
                  Hp1 ltac:(lia)) as (iss2 & -> & Hp2 & Hle).
      rewrite append_nil_l. unfold install.
      rewrite (moves_loop_pending _ iss2 (S (String.length (buf iss))) _ _ Hp2
                 ltac:(lia)).
      destruct (replay _ _ _). reflexivity.
Qed.

(** What [replay] computes is the longest prefix that applies. *)
Lemma replay_applies ws : forall p st0 p' st,
  replay p st0 ws = (p', st) ->
  exists applied rest sts,
    ws = (applied ++ rest)%list /\ applies p applied p' sts /\
    st = (rev sts ++ st0)%list /\ length sts = length applied /\
    match rest with
    | [] => True
    | t :: _ => UCI_to_move p' t = MOVE_NONE
    end.
Proof.
  induction ws as [|t ws IH]; intros p st0 p' st Hr; cbn [replay] in Hr.
  - injection Hr as <- <-. exists [], [], []. repeat split. constructor.
  - destruct (decide (UCI_to_move p t = MOVE_NONE)) as [Hm|Hm].
    + injection Hr as <- <-. exists [], (t :: ws), [].
      repeat split; [constructor|assumption].
    + destruct (Position_do_move _ _ _ _) as [p1 si] eqn:Hd.
      destruct (IH _ _ _ _ Hr) as (applied & rest & sts & -> & Ha & -> & Hl & Hs).
      exists (t :: applied), rest, (si :: sts). repeat split.
      * econstructor; eassumption.
      * cbn [rev]. rewrite <- app_assoc. reflexivity.
      * cbn [length]. now rewrite Hl.
      * assumption.
Qed.

Lemma read_string_head iss : fst (read_string iss) = head (pending iss).
Proof.
  pose proof (read_string_pending iss) as Hr.
  destruct (pending iss); destruct Hr as (iss' & -> & _); reflexivity.
Qed.

Lemma before_after_app k fs rest :
  ~ In k fs ->
  before k (fs ++ k :: rest) = fs /\ after k (fs ++ k :: rest) = rest.
Proof.
  induction fs as [|f fs IH]; intros Hk; cbn [app before after].
  - rewrite String.eqb_refl. split; reflexivity.
  - destruct (String.eqb_spec f k) as [->|Hne]; [exfalso; apply Hk; now left|].
    destruct IH as [-> ->]; [intros H; apply Hk; now right|]. split; reflexivity.
Qed.

Lemma before_after_absent k fs :
  ~ In k fs -> before k fs = fs /\ after k fs = [].
Proof.
  induction fs as [|f fs IH]; intros Hk; cbn [before after]; [split; reflexivity|].
  destruct (String.eqb_spec f k) as [->|Hne]; [exfalso; apply Hk; now left|].
  destruct IH as [-> ->]; [intros H; apply Hk; now right|]. split; reflexivity.
Qed.

Lemma position_recognized w iss fen mvs :
  recognized (position_variant (Options w)) (pending iss) fen mvs ->
  position w iss = Some (install w fen (position_variant (Options w)) mvs).
Proof.
  intros Hrec. rewrite position_pending. unfold position_words.
  inversion Hrec as [Hws|mv Hws|fs Hno Hws|fs mv Hno Hws]; subst;
    cbn [String.eqb Ascii.eqb Bool.eqb tail]; try reflexivity.
  - destruct (before_after_absent "moves" fs Hno) as [-> ->]. reflexivity.
  - destruct (before_after_app "moves" fs mvs Hno) as [-> ->]. reflexivity.
Qed.

(** X24: for a position line of the form "startpos", "startpos moves ...",
    "fen <words>" or "fen <words> moves ...", replay applies exactly the
    longest prefix of the move list whose words parse to legal moves in the
    successively updated position: the position ends at the state after that
    prefix, the stack holds one snapshot per applied move with the last
    pushed on top, the word after the prefix (if any) does not parse there,
    and nothing is written to the output. *)
Theorem position_replays_longest_legal_prefix
    (w : World) (iss : istream) (fen : string) (mvs : list string) :
  recognized (position_variant (Options w)) (pending iss) fen mvs ->
  exists applied rest p' sts w',
    mvs = (applied ++ rest)%list /\
    applies (Position_set (pos w) fen (position_variant (Options w)) Threads_main)
      applied p' sts /\
    match rest with
    | [] => True
    | t :: _ => UCI_to_move p' t = MOVE_NONE
    end /\
    length sts = length applied /\
    position w iss = Some w' /\
    w' = set_SetupStates (Some (rev sts)) (set_pos p' w) /\
    pos w' = p' /\ SetupStates w' = Some (rev sts) /\
    cout w' = cout w /\ calls w' = calls w.
Proof.
  intros Hrec. rewrite (position_recognized _ _ _ _ Hrec). unfold install.
  destruct (replay _ _ _) as [p' st] eqn:Hr.
  destruct (replay_applies _ _ _ _ _ Hr)
    as (applied & rest & sts & -> & Ha & -> & Hl & Hs).
  exists applied, rest, p', sts. eexists. rewrite app_nil_r.
  repeat split; try eassumption; reflexivity.
Qed.

(** C3: when the first token is neither "startpos" nor "fen" (or there is no
    first token), [position] returns with the world, and so the position and
    the state history stack, exactly as it was. *)
Theorem position_unrecognized_prefix_untouched (w : World) (iss : istream) :
  fst (read_string iss) <> Some "startpos" ->
  fst (read_string iss) <> Some "fen" ->
  position w iss = Some w.
Proof.
  rewrite read_string_head, position_pending. unfold position_words.
  destruct (pending iss) as [|t rest]; [reflexivity|]. cbn [head]. intros H1 H2.
  destruct (String.eqb_spec t "startpos") as [->|_]; [congruence|].
  destruct (String.eqb_spec t "fen") as [->|_]; [congruence|]. reflexivity.
Qed.

(** What lines 73-81 do: after "startpos" the initial FEN is selected (the
    horde one when the build has HORDE and the horde flag is on) and line 80
    reads one more token without comparing it with "moves"; the move loop
    starts at the token after it. *)
Lemma position_startpos_consumes_next_token
    (w : World) (iss : istream) (rest : list string) :
  pending iss = "startpos" :: rest ->
  let variant := position_variant (Options w) in
  let fen :=
    if HORDE && negb (Z.land variant HORDE_VARIANT =? 0)
    then StartFENHorde else StartFEN in
  position w iss = Some (install w fen variant (tail rest)).
Proof.
  intros Hp. cbv zeta. rewrite position_pending, Hp. unfold position_words.
  cbn [String.eqb Ascii.eqb Bool.eqb]. unfold startpos_fen.
  destruct HORDE; [|reflexivity].
  destruct (Z.land _ _ =? 0); reflexivity.
Qed.

Lemma position_variant_flags o : position_variant o = variant_flags o.
Proof. unfold position_variant, variant_flags, variant_table. reflexivity. Qed.

Lemma position_Options w iss w' : position w iss = Some w' -> Options w' = Options w.
Proof.
  rewrite position_pending. intros [= <-]. unfold position_words, install.
  destruct (pending iss) as [|t rest]; [reflexivity|].
  repeat match goal with
         | |- context [if ?b then _ else _] => destruct b
         | |- context [let (_, _) := ?x in _] => destruct x
         end; reflexivity.
Qed.

(** C8: every [position] command computes the variant flags from the
    options as they are at that moment, starting from the standard variant
    and OR-ing in one bit per enabled option; the flags handed to
    [Position::set] are these, and an option changed by [setoption] between
    two [position] commands is the one the second command uses. *)
Theorem position_variant_recomputed :
  (forall o, position_variant o = variant_flags o) /\
  (forall w iss t rest,
     pending iss = t :: rest -> t = "startpos" \/ t = "fen" ->
     exists fen mvs,
       position w iss = Some (install w fen (variant_flags (Options w)) mvs)) /\
  (forall w1 iss1 w2 name value iss2 t rest,
     position w1 iss1 = Some w2 ->
     is_Some (Options w1 !! name) ->
     pending iss2 = t :: rest -> t = "startpos" \/ t = "fen" ->
     exists fen mvs,
       position (apply_option name value w2) iss2 =
       Some (install (apply_option name value w2) fen
               (variant_flags (<[name := value]> (Options w1))) mvs)).
Proof.
  split; [exact position_variant_flags|].
  assert (H2 : forall w iss t rest,
     pending iss = t :: rest -> t = "startpos" \/ t = "fen" ->
     exists fen mvs,
       position w iss = Some (install w fen (variant_flags (Options w)) mvs)).
  { intros w iss t rest Hp Ht. rewrite position_pending, Hp.
    unfold position_words. rewrite position_variant_flags.
    destruct Ht as [-> | ->]; cbn [String.eqb Ascii.eqb Bool.eqb];
      eexists; eexists; reflexivity. }
  split; [exact H2|].
  intros w1 iss1 w2 name value iss2 t rest Hpos [v Hv] Hp Ht.
  destruct (H2 (apply_option name value w2) iss2 t rest Hp Ht) as (fen & mvs & ->).
  exists fen, mvs. do 3 f_equal.
  unfold apply_option. rewrite (position_Options _ _ _ Hpos), Hv. reflexivity.
Qed.

(** ** setoption *)

Lemma name_loop_pending ws : forall iss n acc,
  pending iss = ws -> (avail iss < n)%nat ->
  exists iss',
    name_loop n iss acc = Some (fold_left add_word (before "value" ws) acc, iss') /\
    pending iss' = after "value" ws /\ (avail iss' <= avail iss)%nat.
Proof.
  induction ws as [|t ws IH]; intros iss n acc Hp Hn;
    (destruct n as [|n]; [lia|]); pose proof (read_string_pending iss) as Hr;
    rewrite Hp in Hr; cbn [name_loop before after fold_left].
  - destruct Hr as (iss' & -> & Hf & _). exists iss'.
    rewrite (failed_pending _ Hf). unfold avail. rewrite Hf. repeat split; lia.
  - destruct Hr as (iss' & -> & Hp' & _ & Hlt & _).
    destruct (String.eqb t "value").
    + exists iss'. repeat split; [assumption|lia].
    + destruct (IH iss' n (add_word acc t) Hp' ltac:(lia))
        as (iss'' & Hl & Hp'' & Hle).
      exists iss''. cbn [fold_left]. repeat split; [exact Hl|assumption|lia].
Qed.

Lemma value_loop_pending ws : forall iss n acc,
  pending iss = ws -> (avail iss < n)%nat ->
  exists iss', value_loop n iss acc = Some (fold_left add_word ws acc, iss').
Proof.
  induction ws as [|t ws IH]; intros iss n acc Hp Hn;
    (destruct n as [|n]; [lia|]); pose proof (read_string_pending iss) as Hr;
    rewrite Hp in Hr; cbn [value_loop fold_left].
  - destruct Hr as (iss' & -> & _). exists iss'. reflexivity.
  - destruct Hr as (iss' & -> & Hp' & _ & Hlt & _).
    apply (IH iss' n (add_word acc t) Hp'). lia.
Qed.

Lemma append_nonempty (a b : string) : a <> EmptyString -> a +:+ b <> EmptyString.
Proof. destruct a; [congruence|]. rewrite append_cons. discriminate. Qed.

Lemma join_cons_cons sep (a t : string) ts :
  join sep (a :: t :: ts) = a +:+ sep +:+ join sep (t :: ts).
Proof. reflexivity. Qed.

Lemma fold_add_word_nonempty ts : forall acc,
  acc <> EmptyString -> fold_left add_word ts acc = join " " (acc :: ts).
Proof.
  induction ts as [|t ts IH]; intros acc Hacc; [reflexivity|].
  cbn [fold_left]. rewrite IH; unfold add_word.
  - destruct acc as [|x acc]; [congruence|]. cbn [space_unless_empty].
    destruct ts as [|t2 ts]; [reflexivity|].
    rewrite !join_cons_cons, !append_assoc3. reflexivity.
  - apply append_nonempty. assumption.
Qed.

(** Joining with single spaces is what the accumulation computes, because an
    extracted token is never empty. *)
Lemma fold_add_word_join ts :
  Forall (fun t => t <> EmptyString) ts -> fold_left add_word ts EmptyString = join " " ts.
Proof.
  destruct ts as [|t ts]; [reflexivity|]. intros Hne.
  cbn [fold_left]. unfold add_word at 2. cbn [space_unless_empty].
  rewrite !append_nil_l. apply fold_add_word_nonempty.
  inversion Hne; assumption.
Qed.

Lemma pending_nonempty iss : Forall (fun t => t <> EmptyString) (pending iss).
Proof.
  unfold pending. destruct (failbit iss); [constructor|apply words_nonempty].
Qed.

Lemma Forall_before (P : string -> Prop) k ws : Forall P ws -> Forall P (before k ws).
Proof.
  induction 1 as [|t ws Ht Hws IH]; cbn [before]; [constructor|].
  destruct (String.eqb t k); constructor; assumption.
Qed.

Lemma Forall_after (P : string -> Prop) k ws : Forall P ws -> Forall P (after k ws).
Proof.
  induction 1 as [|t ws Ht Hws IH]; cbn [after]; [constructor|].
  destruct (String.eqb t k); assumption.
Qed.

Lemma Forall_tail (P : string -> Prop) ws : Forall P ws -> Forall P (tail ws).
Proof. destruct 1; [constructor|assumption]. Qed.

(** [setoption] never runs out of fuel, and applies the option change that
    [option_name] and [option_value] read off the pending words. *)
Lemma setoption_pending w iss :
  setoption w iss =
  Some (apply_option (option_name (pending iss)) (option_value (pending iss)) w).
Proof.
  unfold setoption, option_name, option_value.
  pose proof (avail_le_length iss) as Hfuel.
  pose proof (pending_nonempty iss) as Hne.
  pose proof (read_string_pending iss) as Hr.
  assert (Hgo : forall iss1, pending iss1 = tail (pending iss) ->
            (avail iss1 <= avail iss)%nat ->
            match name_loop (S (String.length (buf iss))) iss1 EmptyString with
            | Some (name, iss2) =>
                match value_loop (S (String.length (buf iss))) iss2 EmptyString with
                | Some (value, _) => Some (apply_option name value w)
                | None => None
                end
            | None => None
            end =
            Some (apply_option (join " " (before "value" (tail (pending iss))))
                    (join " " (after "value" (tail (pending iss)))) w)).
  { intros iss1 Hp1 Hle.
    destruct (name_loop_pending _ iss1 (S (String.length (buf iss))) EmptyString
                Hp1 ltac:(lia)) as (iss2 & -> & Hp2 & Hle2).
    destruct (value_loop_pending _ iss2 (S (String.length (buf iss))) EmptyString
                Hp2 ltac:(lia)) as (iss3 & ->).
    rewrite !fold_add_word_join;
      [reflexivity | apply Forall_after | apply Forall_before];
      apply Forall_tail; assumption. }
  destruct (pending iss) as [|t rest].
  - destruct Hr as (iss1 & -> & Hf & _). apply Hgo.
    + apply failed_pending; assumption.
    + unfold avail at 1. rewrite Hf. lia.
  - destruct Hr as (iss1 & -> & Hp1 & _ & Hlt & _). apply Hgo; [assumption|lia].
Qed.

Lemma dom_insert_present (o : gmap string string) name value :
  is_Some (o !! name) -> dom (<[name := value]> o) = dom o.
Proof.
  intros Hin. rewrite dom_insert_L.
  apply subseteq_union_1_L, singleton_subseteq_l, elem_of_dom. exact Hin.
Qed.

(** C4: for every setoption command, with [name] and [value] the joined
    option name and value: if [name] is in the registry, its value becomes
    [value] and no output is produced; if it is not, exactly one block
    "No such option: <name>" is written and the registry is unchanged; in
    both cases the registry has the same entries as before. *)
Theorem setoption_registered_or_reported (w : World) (iss : istream) :
  let name := option_name (pending iss) in
  let value := option_value (pending iss) in
  exists w', setoption w iss = Some w' /\
    (is_Some (Options w !! name) ->
       Options w' = <[name := value]> (Options w) /\
       Options w' !! name = Some value /\
       cout w' = cout w) /\
    (Options w !! name = None ->
       cout w' = (cout w ++ ["No such option: " +:+ name])%list /\
       Options w' = Options w) /\
    dom (Options w') = dom (Options w).
Proof.
  cbv zeta. rewrite setoption_pending. eexists; split; [reflexivity|].
  unfold apply_option.
  destruct (Options w !! option_name (pending iss)) as [v|] eqn:Hl.
  - cbn [Options set_Options cout]. split; [|split].
    + intros _. repeat split. apply lookup_insert_eq.
    + discriminate.
    + apply dom_insert_present. rewrite Hl. eauto.
  - cbn [Options sync_cout cout]. split; [|split].
    + intros [? [=]].
    + intros _. split; reflexivity.
    + reflexivity.
Qed.

(** C7: after the first token, the words up to a literal "value" joined with
    single spaces are the option name and the words after it, joined the
    same way, are the value; without a "value" word, or with nothing after
    it, the value is empty, so "name Some Long Name value" sets the option
    "Some Long Name" to the empty string. *)
Theorem setoption_name_value_joined :
  (forall w iss,
     failbit iss = false ->
     setoption w iss =
     Some (apply_option
             (join " " (before "value" (tail (words (buf iss)))))
             (join " " (after "value" (tail (words (buf iss))))) w)) /\
  (forall w iss,
     failbit iss = false ->
     ~ In "value" (tail (words (buf iss))) ->
     setoption w iss =
     Some (apply_option (join " " (tail (words (buf iss)))) EmptyString w)) /\
  (forall w k,
     is_Some (Options w !! "Some Long Name") ->
     setoption w (mkIs "name Some Long Name value" false k) =
     Some (set_Options (<["Some Long Name" := EmptyString]> (Options w)) w)).
Proof.
  assert (H1 : forall w iss,
     failbit iss = false ->
     setoption w iss =
     Some (apply_option
             (join " " (before "value" (tail (words (buf iss)))))
             (join " " (after "value" (tail (words (buf iss))))) w)).
  { intros w iss Hf. rewrite setoption_pending.
    unfold option_name, option_value, pending. rewrite Hf. reflexivity. }
  split; [exact H1|]. split.
  - intros w iss Hf Hno. rewrite (H1 _ _ Hf).
    destruct (before_after_absent "value" _ Hno) as [-> ->]. reflexivity.
  - intros w k [v Hv]. rewrite H1 by reflexivity.
    replace (join " " (before "value" (tail (words (buf
               (mkIs "name Some Long Name value" false k))))))
      with "Some Long Name" by (vm_compute; reflexivity).
    replace (join " " (after "value" (tail (words (buf
               (mkIs "name Some Long Name value" false k))))))
      with EmptyString by (vm_compute; reflexivity).
    unfold apply_option. rewrite Hv. reflexivity.
Qed.

(** ** go *)

Lemma set_searchmoves_id (l : LimitsType) : set_searchmoves (searchmoves l) l = l.
Proof. destruct l; reflexivity. Qed.

Lemma searchmoves_loop_pending p ws : forall iss n l,
  pending iss = ws -> (avail iss < n)%nat ->
  exists iss',
    searchmoves_loop n p iss l =
    Some (set_searchmoves (searchmoves l ++ map (UCI_to_move p) ws) l, iss') /\
    failbit iss' = true.
Proof.
  induction ws as [|t ws IH]; intros iss n l Hp Hn;
    (destruct n as [|n]; [lia|]); pose proof (read_string_pending iss) as Hr;
    rewrite Hp in Hr; cbn [searchmoves_loop map].
  - destruct Hr as (iss' & -> & Hf & _). exists iss'.
    rewrite app_nil_r, set_searchmoves_id. split; [reflexivity|assumption].
  - destruct Hr as (iss' & -> & Hp' & _ & Hlt & _).
    destruct (IH iss' n (set_searchmoves (searchmoves l ++ [UCI_to_move p t]) l)
                Hp' ltac:(lia)) as (iss'' & -> & Hf).
    exists iss''. split; [|assumption].
    unfold set_searchmoves; cbn. rewrite <- app_assoc. reflexivity.
Qed.

Lemma go_loop_failed n p iss l :
  failbit iss = true ->
  exists iss', go_loop (S n) p iss l = Some (l, iss') /\ failbit iss' = true.
Proof.
  intros Hf. pose proof (read_string_pending iss) as Hr.
  rewrite (failed_pending _ Hf) in Hr. destruct Hr as (iss' & Hr & Hf' & _).
  exists iss'. cbn [go_loop]. rewrite Hr. split; [reflexivity|assumption].
Qed.

Lemma startTime_store set v (l : LimitsType) :
  (forall z l0, startTime (set z l0) = startTime l0) ->
  startTime (store set v l) = startTime l.
Proof. intros Hs. destruct v; [apply Hs|reflexivity]. Qed.

(** The outer loop of [go] always ends, and never touches [startTime]. *)
Lemma go_loop_total p n : forall iss l,
  (avail iss < n)%nat ->
  exists l' iss', go_loop n p iss l = Some (l', iss') /\ startTime l' = startTime l.
Proof.
  induction n as [|n IH]; intros iss l Hn; [lia|].
  cbn [go_loop]. pose proof (read_string_pending iss) as Hr.
  destruct (pending iss) as [|t ts].
  { destruct Hr as (iss' & -> & _). eexists; eexists; split; reflexivity. }
  destruct Hr as (iss1 & -> & Hp1 & _ & Hlt & _).
  assert (Hint : forall lo hi set,
    (forall z l0, startTime (set z l0) = startTime l0) ->
    exists l' iss',
      (let (v, iss'') := read_int lo hi iss1 in go_loop n p iss'' (store set v l))
      = Some (l', iss') /\ startTime l' = startTime l).
  { intros lo hi set Hset. pose proof (read_int_avail lo hi iss1) as Hav.
    destruct (read_int lo hi iss1) as [v iss2]. cbn [snd] in Hav.
    destruct (IH iss2 (store set v l) ltac:(lia)) as (l' & iss' & -> & Hst).
    exists l', iss'. split; [reflexivity|].
    rewrite Hst. apply startTime_store, Hset. }
  destruct (String.eqb t "searchmoves").
  { destruct (searchmoves_loop_pending p ts iss1 n l Hp1 ltac:(lia))
      as (iss2 & -> & Hf2).
    destruct (IH iss2 (set_searchmoves (searchmoves l ++ map (UCI_to_move p) ts) l))
      as (l' & iss' & -> & Hst); [unfold avail; rewrite Hf2; lia|].
    exists l', iss'. split; [reflexivity|exact Hst]. }
  repeat match goal with
         | |- context [if String.eqb t ?k then _ else _] =>
             destruct (String.eqb t k);
             [first [ apply Hint; intros; reflexivity
                    | destruct (IH iss1 (set_infinite 1 l) ltac:(lia))
                        as (l' & iss' & -> & Hst);
                      exists l', iss'; split; [reflexivity|exact Hst]
                    | destruct (IH iss1 (set_ponder 1 l) ltac:(lia))
                        as (l' & iss' & -> & Hst);
                      exists l', iss'; split; [reflexivity|exact Hst] ]|]
         end.
  apply IH. lia.
Qed.

Lemma go_limits_total p iss :
  exists l iss', go_limits p iss = Some (l, iss') /\ startTime l = now (nreads iss).
Proof.
  unfold go_limits.
  destruct (go_loop_total p (S (String.length (buf iss))) iss
              (set_startTime (now (nreads iss)) LimitsType_new))
    as (l & iss' & -> & Hst).
  - pose proof (avail_le_length iss). lia.
  - exists l, iss'. split; [reflexivity|exact Hst].
Qed.

(** C1: once [go] reads the token "searchmoves", every later word of the
    command is turned into a move by the move parser and appended to the
    search-move list, whatever it is, and the parse ends with the input
    exhausted; for "searchmoves e2e4 d2d4 depth 10" the words "depth" and
    "10" are handed to the move parser like the two moves and the depth
    field keeps its initial zero. *)
Theorem go_searchmoves_consumes_rest :
  (forall n p iss l rest,
     failbit iss = false ->
     words (buf iss) = "searchmoves" :: rest ->
     (String.length (buf iss) < n)%nat ->
     exists iss',
       go_loop n p iss l =
       Some (set_searchmoves (searchmoves l ++ map (UCI_to_move p) rest) l, iss') /\
       failbit iss' = true) /\
  (forall p k,
     exists l iss',
       go_limits p (mkIs "searchmoves e2e4 d2d4 depth 10" false k) = Some (l, iss') /\
       searchmoves l =
         [UCI_to_move p "e2e4"; UCI_to_move p "d2d4";
          UCI_to_move p "depth"; UCI_to_move p "10"] /\
       depth l = 0 /\ failbit iss' = true).
Proof.
  split.
  - intros n p iss l rest Hf Hw Hn.
    assert (Hp : pending iss = "searchmoves" :: rest)
      by (unfold pending; rewrite Hf; exact Hw).
    assert (Hav : avail iss = String.length (buf iss))
      by (unfold avail; rewrite Hf; reflexivity).
    destruct n as [|n]; [lia|]. cbn [go_loop].
    pose proof (read_string_pending iss) as Hr. rewrite Hp in Hr.
    destruct Hr as (iss1 & -> & Hp1 & _ & Hlt & _).
    cbn [String.eqb Ascii.eqb Bool.eqb].
    destruct (searchmoves_loop_pending p rest iss1 n l Hp1 ltac:(lia))
      as (iss2 & -> & Hf2).
    destruct n as [|n]; [lia|]. apply go_loop_failed. exact Hf2.
  - intros p k. eexists; eexists. split; [vm_compute; reflexivity|].
    repeat split; reflexivity.
Qed.

Lemma go_limits_example p b k :
  b = "wtime 60000 btime 60000 movestogo 20" \/
  b = " wtime 60000 btime 60000 movestogo 20" ->
  exists l iss',
    go_limits p (mkIs b false k) = Some (l, iss') /\
    time l WHITE = 60000 /\ time l BLACK = 60000 /\ movestogo l = 20 /\
    inc l WHITE = 0 /\ inc l BLACK = 0 /\ npmsec l = 0 /\ depth l = 0 /\
    nodes l = 0 /\ movetime l = 0 /\ mate l = 0 /\ searchmoves l = [] /\
    infinite l = 0 /\ ponder l = 0 /\
    startTime l = now k /\ nreads iss' = (k + 7)%nat.
Proof.
  intros [-> | ->]; (eexists; eexists; split; [vm_compute; reflexivity|]);
    cbn; repeat split; try reflexivity; f_equal; lia.
Qed.

(** C6: [go] reads the clock before its first extraction and hands the
    limits it parsed, and no others, to [start_thinking], writing no output;
    for "wtime 60000 btime 60000 movestogo 20" the record handed over has
    the two times and moves-to-go as given, every other field at zero and
    the start time read on entry, also when the line comes through
    [command]; a word that is not a [go] keyword is read and skipped, the
    parse going on after it with the limits unchanged. *)
Theorem go_limits_parsed :
  (forall w iss,
     exists limits iss',
       go_limits (pos w) iss = Some (limits, iss') /\
       go w iss = Some (call (start_thinking (pos w) limits (SetupStates w)) w) /\
       startTime limits = now (nreads iss)) /\
  (forall p k,
     exists l iss',
       go_limits p (mkIs "wtime 60000 btime 60000 movestogo 20" false k)
       = Some (l, iss') /\
       time l WHITE = 60000 /\ time l BLACK = 60000 /\ movestogo l = 20 /\
       inc l WHITE = 0 /\ inc l BLACK = 0 /\ npmsec l = 0 /\ depth l = 0 /\
       nodes l = 0 /\ movetime l = 0 /\ mate l = 0 /\ searchmoves l = [] /\
       infinite l = 0 /\ ponder l = 0 /\
       startTime l = now k /\ nreads iss' = (k + 7)%nat) /\
  (forall w k,
     exists l,
       go w (mkIs "wtime 60000 btime 60000 movestogo 20" false k)
       = Some (call (start_thinking (pos w) l (SetupStates w)) w) /\
       time l WHITE = 60000 /\ time l BLACK = 60000 /\ movestogo l = 20 /\
       inc l WHITE = 0 /\ inc l BLACK = 0 /\ npmsec l = 0 /\ depth l = 0 /\
       nodes l = 0 /\ movetime l = 0 /\ mate l = 0 /\ searchmoves l = [] /\
       infinite l = 0 /\ ponder l = 0 /\
       startTime l = now k) /\
  (forall w,
     exists l,
       command w "go wtime 60000 btime 60000 movestogo 20"
       = Some (call (start_thinking (pos w) l (SetupStates w)) w) /\
       time l WHITE = 60000 /\ time l BLACK = 60000 /\ movestogo l = 20 /\
       inc l WHITE = 0 /\ inc l BLACK = 0 /\ npmsec l = 0 /\ depth l = 0 /\
       nodes l = 0 /\ movetime l = 0 /\ mate l = 0 /\ searchmoves l = [] /\
       infinite l = 0 /\ ponder l = 0 /\
       startTime l = now 1%nat) /\
  (forall n p iss l t,
     failbit iss = false ->
     head (words (buf iss)) = Some t ->
     ~ In t go_keywords ->
     exists iss1,
       read_string iss = (Some t, iss1) /\
       go_loop (S n) p iss l = go_loop n p iss1 l) /\
  (forall w iss t,
     failbit iss = false ->
     head (words (buf iss)) = Some t ->
     ~ In t go_keywords ->
     exists iss1 l iss',
       read_string iss = (Some t, iss1) /\
       go_loop (String.length (buf iss)) (pos w) iss1
         (set_startTime (now (nreads iss)) LimitsType_new) = Some (l, iss') /\
       go w iss = Some (call (start_thinking (pos w) l (SetupStates w)) w)).
Proof.
  assert (Hskip : forall n p iss l t,
     failbit iss = false ->
     head (words (buf iss)) = Some t ->
     ~ In t go_keywords ->
     exists iss1,
       read_string iss = (Some t, iss1) /\
       (avail iss1 < avail iss)%nat /\
       go_loop (S n) p iss l = go_loop n p iss1 l).
  { intros n p iss l t Hf Hh Hno.
    pose proof (read_string_pending iss) as Hr. unfold pending in Hr.
    rewrite Hf in Hr. destruct (words (buf iss)) as [|t' ts]; [discriminate|].
    injection Hh as ->. destruct Hr as (iss1 & Hr & _ & _ & Hlt & _).
    exists iss1. split; [exact Hr|]. split; [exact Hlt|].
    cbn [go_loop]. rewrite Hr.
    repeat match goal with
           | |- context [if String.eqb t ?k then _ else _] =>
               destruct (String.eqb_spec t k) as [->|_];
               [exfalso; apply Hno; unfold go_keywords; cbn [In]; tauto|]
           end.
    reflexivity. }
  split; [|split; [|split; [|split; [|split]]]].
  - intros w iss. unfold go.
    destruct (go_limits_total (pos w) iss) as (l & iss' & -> & Hst).
    exists l, iss'. split; [reflexivity|]. split; [reflexivity|exact Hst].
  - intros p k. apply go_limits_example. left. reflexivity.
  - intros w k.
    destruct (go_limits_example (pos w) "wtime 60000 btime 60000 movestogo 20" k
                (or_introl eq_refl)) as (l & iss' & Hg & Hfields).
    exists l. unfold go. rewrite Hg. split; [reflexivity|].
    repeat match goal with |- _ /\ _ => split end; apply Hfields.
  - intros w.
    destruct (go_limits_example (pos w) " wtime 60000 btime 60000 movestogo 20" 1
                (or_intror eq_refl)) as (l & iss' & Hg & Hfields).
    exists l. unfold command.
    replace (read_string (istringstream "go wtime 60000 btime 60000 movestogo 20"))
      with (Some "go", mkIs " wtime 60000 btime 60000 movestogo 20" false 1)
      by (vm_compute; reflexivity).
    change (default EmptyString (Some "go")) with "go".
    cbn [String.eqb Ascii.eqb Bool.eqb orb andb].
    unfold go. rewrite Hg. split; [reflexivity|].
    repeat match goal with |- _ /\ _ => split end; apply Hfields.
  - intros n p iss l t Hf Hh Hno.
    destruct (Hskip n p iss l t Hf Hh Hno) as (iss1 & Hr & _ & Hgo).
    exists iss1. split; assumption.
  - intros w iss t Hf Hh Hno. unfold go, go_limits.
    destruct (Hskip (String.length (buf iss)) (pos w) iss
                (set_startTime (now (nreads iss)) LimitsType_new) t Hf Hh Hno)
      as (iss1 & Hr & Hlt & Hgo).
    pose proof (avail_le_length iss) as Hle.
    destruct (go_loop_total (pos w) (String.length (buf iss)) iss1
                (set_startTime (now (nreads iss)) LimitsType_new) ltac:(lia))
      as (l & iss' & Hl & _).
    exists iss1, l, iss'. split; [exact Hr|]. split; [exact Hl|].
    rewrite Hgo, Hl. reflexivity.
Qed.

(** ** command *)

Lemma command_first_token cmd :
  exists iss,
    read_string (istringstream cmd) = (head (words cmd), iss) /\
    pending iss = tail (words cmd).
Proof.
  pose proof (read_string_pending (istringstream cmd)) as Hr.
  change (pending (istringstream cmd)) with (words cmd) in Hr.
  destruct (words cmd) as [|t ts].
  - destruct Hr as (iss & Hr & Hf & _). exists iss. split; [exact Hr|].
    apply failed_pending; assumption.
  - destruct Hr as (iss & Hr & Hp & _). exists iss. split; assumption.
Qed.

Lemma blank_words s : blank s = true -> words s = [].
Proof.
  induction s as [|c s IH]; [reflexivity|]. cbn [blank words].
  destruct (isspace c); [exact IH|discriminate].
Qed.

(** C9: a command whose first token is "ponderhit" does what "stop" does
    (raise the stop signal, wake the main worker) when stop-on-ponderhit is
    armed; when it is not armed it clears the ponder flag of the current
    limits and leaves the stop signal and the worker alone. *)
Theorem command_ponderhit (w : World) (cmd : string) :
  head (words cmd) = Some "ponderhit" ->
  (Signals_stopOnPonderhit w = true ->
     command w cmd = command w "stop" /\
     exists w', command w cmd = Some w' /\
       Signals_stop w' = true /\
       calls w' = (calls w ++ [start_searching true])%list /\
       Limits w' = Limits w) /\
  (Signals_stopOnPonderhit w = false ->
     exists w', command w cmd = Some w' /\
       w' = set_Limits (set_ponder 0 (Limits w)) w /\
       ponder (Limits w') = 0 /\
       Signals_stop w' = Signals_stop w /\
       calls w' = calls w).
Proof.
  intros Hh. unfold command at 1 3 4.
  destruct (command_first_token cmd) as (iss & -> & _). rewrite Hh.
  change (default EmptyString (Some "ponderhit")) with "ponderhit".
  cbn [String.eqb Ascii.eqb Bool.eqb orb andb].
  split; intros ->.
  - split; [reflexivity|]. eexists. split; [reflexivity|].
    repeat split; reflexivity.
  - eexists. split; [reflexivity|]. repeat split; reflexivity.
Qed.

(** C10: an empty or all-blank command line has no first token; the token
    stays empty, no branch matches, and the line is echoed in one "Unknown
    command: " block, with the position, the state history stack and the
    option registry as they were. *)
Theorem command_blank_line_unknown (w : World) (cmd : string) :
  blank cmd = true ->
  exists w', command w cmd = Some w' /\
    w' = sync_cout ("Unknown command: " +:+ cmd) w /\
    cout w' = (cout w ++ ["Unknown command: " +:+ cmd])%list /\
    pos w' = pos w /\ SetupStates w' = SetupStates w /\ Options w' = Options w.
Proof.
  intros Hb. unfold command.
  destruct (command_first_token cmd) as (iss & -> & _).
  rewrite (blank_words _ Hb). cbn [head].
  change (default EmptyString None) with EmptyString.
  cbn [String.eqb orb andb].
  eexists. split; [reflexivity|]. repeat split; reflexivity.
Qed.

(** ** What a command can and cannot do *)

Lemma position_words_Options w ws : Options (position_words w ws) = Options w.
Proof.
  unfold position_words, install. destruct ws as [|t rest]; [reflexivity|].
  repeat match goal with
         | |- context [if ?b then _ else _] => destruct b
         | |- context [let (_, _) := ?x in _] => destruct x
         end; reflexivity.
Qed.

(** [command], branch by branch, on the words of the line. *)
Lemma command_cases w cmd :
  let t := head (words cmd) in
  let args := tail (words cmd) in
  exists w', command w cmd = Some w' /\
    (((t = Some "quit" \/ t = Some "stop" \/
       (t = Some "ponderhit" /\ Signals_stopOnPonderhit w = true)) /\
      w' = call (start_searching true) (set_Signals_stop true w)) \/
     (t = Some "ponderhit" /\ Signals_stopOnPonderhit w = false /\
      w' = set_Limits (set_ponder 0 (Limits w)) w) \/
     (t = Some "uci" /\
      w' = sync_cout ("id name " +:+ engine_info true
                      +:+ String "010" (Options_show (Options w))
                      +:+ String "010" "uciok") w) \/
     (t = Some "ucinewgame" /\
      w' = set_Time_availableNodes 0 (call Search_clear w)) \/
     (t = Some "isready" /\ w' = sync_cout "readyok" w) \/
     (t = Some "go" /\
      exists l, w' = call (start_thinking (pos w) l (SetupStates w)) w) \/
     (t = Some "position" /\ w' = position_words w args) \/
     (t = Some "setoption" /\
      w' = apply_option (option_name args) (option_value args) w) \/
     (t = Some "flip" /\ w' = set_pos (Position_flip (pos w)) w) \/
     (t = Some "d" /\ w' = sync_cout (Position_show (pos w)) w) \/
     (t = Some "eval" /\ w' = sync_cout (Eval_trace (pos w)) w) \/
     ((forall k, In k commands -> t <> Some k) /\
      w' = sync_cout ("Unknown command: " +:+ cmd) w)).
Proof.
  cbv zeta. unfold command.
  destruct (command_first_token cmd) as (iss & -> & Hp).
  destruct (head (words cmd)) as [t|].
  2: { change (default EmptyString None) with EmptyString.
       cbn [String.eqb orb andb]. eexists. split; [reflexivity|].
       do 11 right. split; [|reflexivity]. intros k _. discriminate. }
  change (default EmptyString (Some t)) with t.
  destruct (String.eqb_spec t "quit") as [->|Hquit];
    [eexists; split; [reflexivity|]; left; split; [left|]; reflexivity|].
  destruct (String.eqb_spec t "stop") as [->|Hstop];
    [eexists; split; [reflexivity|]; left; split; [right; left|]; reflexivity|].
  destruct (String.eqb_spec t "ponderhit") as [->|Hph].
  { destruct (Signals_stopOnPonderhit w) eqn:Harm; cbn [orb andb].
    - eexists; split; [reflexivity|]. left. split; [|reflexivity].
      right; right. split; reflexivity.
    - eexists; split; [reflexivity|]. right; left. repeat split. }
  cbn [orb andb].
  destruct (String.eqb_spec t "uci") as [->|Huci];
    [eexists; split; [reflexivity|]; do 2 right; left; split; reflexivity|].
  destruct (String.eqb_spec t "ucinewgame") as [->|Hnew];
    [eexists; split; [reflexivity|]; do 3 right; left; split; reflexivity|].
  destruct (String.eqb_spec t "isready") as [->|Hrdy];
    [eexists; split; [reflexivity|]; do 4 right; left; split; reflexivity|].
  destruct (String.eqb_spec t "go") as [->|Hgo].
  { unfold go. destruct (go_limits_total (pos w) iss) as (l & iss' & -> & _).
    eexists; split; [reflexivity|]. do 5 right; left.
    split; [reflexivity|eexists; reflexivity]. }
  destruct (String.eqb_spec t "position") as [->|Hpos].
  { rewrite position_pending, Hp. eexists; split; [reflexivity|].
    do 6 right; left. split; reflexivity. }
  destruct (String.eqb_spec t "setoption") as [->|Hset].
  { rewrite setoption_pending, Hp. eexists; split; [reflexivity|].
    do 7 right; left. split; reflexivity. }
  destruct (String.eqb_spec t "flip") as [->|Hflip];
    [eexists; split; [reflexivity|]; do 8 right; left; split; reflexivity|].
  destruct (String.eqb_spec t "d") as [->|Hd];
    [eexists; split; [reflexivity|]; do 9 right; left; split; reflexivity|].
  destruct (String.eqb_spec t "eval") as [->|Heval];
    [eexists; split; [reflexivity|]; do 10 right; left; split; reflexivity|].
  eexists; split; [reflexivity|]. do 11 right. split; [|reflexivity].
  intros k Hin [= ->]. unfold commands in Hin. cbn [In] in Hin.
  repeat match type of Hin with _ \/ _ => destruct Hin as [Hin|Hin] end;
    congruence.
Qed.

Ltac by_command_cases w cmd w' H :=
  let Hc := fresh "Hcase" in
  destruct (command_cases w cmd) as (w' & H & Hc); cbv zeta in Hc;
  repeat match type of Hc with _ \/ _ => destruct Hc as [Hc|Hc] end.

Lemma position_words_frame w ws :
  let w' := position_words w ws in
  Options w' = Options w /\ Signals_stop w' = Signals_stop w /\
  Signals_stopOnPonderhit w' = Signals_stopOnPonderhit w /\
  Limits w' = Limits w /\ Time_availableNodes w' = Time_availableNodes w /\
  cout w' = cout w /\ calls w' = calls w.
Proof.
  cbv zeta. unfold position_words, install. destruct ws as [|t rest].
  { repeat split. }
  repeat match goal with
         | |- context [if ?b then _ else _] => destruct b
         | |- context [let (_, _) := ?x in _] => destruct x
         end; repeat split.
Qed.

Lemma apply_option_frame name value w :
  let w' := apply_option name value w in
  pos w' = pos w /\ SetupStates w' = SetupStates w /\
  Signals_stop w' = Signals_stop w /\
  Signals_stopOnPonderhit w' = Signals_stopOnPonderhit w /\
  Limits w' = Limits w /\ Time_availableNodes w' = Time_availableNodes w /\
  calls w' = calls w /\ dom (Options w') = dom (Options w) /\
  (cout w' = cout w \/ exists s, cout w' = (cout w ++ [s])%list).
Proof.
  cbv zeta. unfold apply_option. destruct (Options w !! name) eqn:Hl.
  - repeat split; [|left; reflexivity]. apply dom_insert_present.
    rewrite Hl. eauto.
  - repeat split. right. eexists. reflexivity.
Qed.

(** X2: a command adds at most one block to the output and never rewrites
    what is there; "quit", "stop", "ponderhit", "ucinewgame", "go",
    "position" and "flip" add none. *)
Theorem command_output_append_only (w : World) (cmd : string) :
  exists w', command w cmd = Some w' /\
    (cout w' = cout w \/ exists s, cout w' = (cout w ++ [s])%list) /\
    (forall k,
       In k ["quit"; "stop"; "ponderhit"; "ucinewgame"; "go"; "position"; "flip"] ->
       head (words cmd) = Some k -> cout w' = cout w).
Proof.
  by_command_cases w cmd w' H; exists w'; (split; [exact H|]);
    try (destruct Hcase as (Ht & Hw); try destruct Hw as (? & Hw));
    try (destruct Hcase as (Ht & Harm & Hw)); subst w'.
  all: try (split; [left; reflexivity|intros; reflexivity]).
  all: try (split; [right; eexists; reflexivity|];
            intros k Hin Hk; cbn [In] in Hin;
            repeat match type of Hin with _ \/ _ => destruct Hin as [Hin|Hin] end;
            try contradiction; subst k; first [congruence | exfalso; eapply Ht;
              [|exact Hk]; unfold commands; cbn [In]; tauto]).
  - split; [left|intros]; apply (position_words_frame w).
  - split; [apply (apply_option_frame _ _ w)|].
    intros k Hin Hk; cbn [In] in Hin;
      repeat match type of Hin with _ \/ _ => destruct Hin as [Hin|Hin] end;
      try contradiction; subst k; congruence.
Qed.

(** X5: a line whose first token is none of the twelve known ones (the
    comparison is exact, so "Quit" or "stop," are such tokens) is echoed
    whole, leading blanks included, after "Unknown command: ", and nothing
    else changes. *)
Theorem command_unknown_token (w : World) (cmd : string) :
  (forall k, In k commands -> head (words cmd) <> Some k) ->
  command w cmd = Some (sync_cout ("Unknown command: " +:+ cmd) w).
Proof.
  intros Hno. by_command_cases w cmd w' H;
    try (destruct Hcase as (Ht & Hw); try destruct Hw as (? & Hw));
    try (destruct Hcase as (Ht & Harm & Hw)); subst w'; try exact H.
  all: exfalso.
  1: destruct Ht as [Ht|[Ht|[Ht _]]].
  all: eapply Hno; [|exact Ht]; unfold commands; cbn [In]; tauto.
Qed.

(** ** go, on the pending words *)

(** One turn of the loop on an integer keyword. *)
Lemma go_loop_int_keyword n p iss l kw set lo hi rest :
  In (kw, set, (lo, hi)) int_keywords ->
  pending iss = kw :: rest ->
  exists iss1,
    pending iss1 = rest /\ failbit iss1 = false /\
    (avail iss1 < avail iss)%nat /\ nreads iss1 = S (nreads iss) /\
    go_loop (S n) p iss l =
    (let (v, iss2) := read_int lo hi iss1 in go_loop n p iss2 (store set v l)).
Proof.
  intros Hin Hp. pose proof (read_string_pending iss) as Hr. rewrite Hp in Hr.
  destruct Hr as (iss1 & Hr & Hp1 & Hf1 & Hlt & Hn1 & _).
  exists iss1. repeat split; try assumption.
  cbn [go_loop]. rewrite Hr. unfold int_keywords in Hin. cbn [In] in Hin.
  repeat match type of Hin with _ \/ _ => destruct Hin as [Hin|Hin] end;
    try contradiction; injection Hin as <- <- <- <-; reflexivity.
Qed.

Lemma read_int_same_input lo hi iss1 iss2 :
  same_input iss1 iss2 ->
  fst (read_int lo hi iss1) = fst (read_int lo hi iss2) /\
  same_input (snd (read_int lo hi iss1)) (snd (read_int lo hi iss2)).
Proof.
  intros [Hp Hn]. destruct (pending iss2) as [|t rest] eqn:Hp2.
  - destruct (read_int_pending_nil lo hi iss1 Hp) as (i1 & -> & Hf1 & Hn1).
    destruct (read_int_pending_nil lo hi iss2 Hp2) as (i2 & -> & Hf2 & Hn2).
    split; [reflexivity|]. split; cbn [snd]; [|congruence].
    rewrite (failed_pending _ Hf1), (failed_pending _ Hf2). reflexivity.
  - destruct (read_int_pending lo hi iss1 t rest Hp) as (i1 & -> & Hf1 & Hn1 & Hq1).
    destruct (read_int_pending lo hi iss2 t rest Hp2) as (i2 & -> & Hf2 & Hn2 & Hq2).
    cbn [fst snd]. rewrite Hn in *. split; [reflexivity|].
    split; congruence.
Qed.

(** The limits [go] builds depend on the stream only through its pending
    words. *)
Lemma go_loop_same_input p : forall n1 n2 iss1 iss2 l,
  same_input iss1 iss2 -> (avail iss1 < n1)%nat -> (avail iss2 < n2)%nat ->
  option_map fst (go_loop n1 p iss1 l) = option_map fst (go_loop n2 p iss2 l).
Proof.
  induction n1 as [|n1 IH]; intros n2 iss1 iss2 l [Hp Hn] H1 H2; [lia|].
  destruct n2 as [|n2]; [lia|]. cbn [go_loop].
  pose proof (read_string_pending iss1) as Hr1.
  pose proof (read_string_pending iss2) as Hr2. rewrite Hp in Hr1.
  destruct (pending iss2) as [|t ts].
  { destruct Hr1 as (i1 & -> & _). destruct Hr2 as (i2 & -> & _). reflexivity. }
  destruct Hr1 as (i1 & -> & Hp1 & _ & Hlt1 & Hn1 & _).
  destruct Hr2 as (i2 & -> & Hp2 & _ & Hlt2 & Hn2 & _).
  assert (Hsame : same_input i1 i2) by (split; congruence).
  assert (Hint : forall lo hi set,
    option_map fst
      (let (v, i) := read_int lo hi i1 in go_loop n1 p i (store set v l)) =
    option_map fst
      (let (v, i) := read_int lo hi i2 in go_loop n2 p i (store set v l))).
  { intros lo hi set.
    destruct (read_int_same_input lo hi i1 i2 Hsame) as [Hv Hs].
    pose proof (read_int_avail lo hi i1) as Ha1.
    pose proof (read_int_avail lo hi i2) as Ha2.
    destruct (read_int lo hi i1) as [v1 j1], (read_int lo hi i2) as [v2 j2].
    cbn [fst snd] in *. subst v2. apply IH; [exact Hs|lia|lia]. }
  destruct (String.eqb t "searchmoves").
  { destruct (searchmoves_loop_pending p ts i1 n1 l Hp1 ltac:(lia))
      as (j1 & -> & Hf1).
    destruct (searchmoves_loop_pending p ts i2 n2 l Hp2 ltac:(lia))
      as (j2 & -> & Hf2).
    destruct n1 as [|n1]; [lia|]. destruct n2 as [|n2]; [lia|].
    destruct (go_loop_failed n1 p j1
                (set_searchmoves (searchmoves l ++ map (UCI_to_move p) ts) l) Hf1)
      as (k1 & -> & _).
    destruct (go_loop_failed n2 p j2
                (set_searchmoves (searchmoves l ++ map (UCI_to_move p) ts) l) Hf2)
      as (k2 & -> & _).
    reflexivity. }
  repeat match goal with
         | |- context [if String.eqb t ?k then _ else _] =>
             destruct (String.eqb t k);
             [first [ apply Hint | apply IH; [exact Hsame|lia|lia] ]|]
         end.
  apply IH; [exact Hsame|lia|lia].
Qed.

Lemma go_same_input w iss1 iss2 :
  same_input iss1 iss2 -> go w iss1 = go w iss2.
Proof.
  intros Hs. unfold go, go_limits.
  pose proof (go_loop_same_input (pos w)
                (S (String.length (buf iss1))) (S (String.length (buf iss2)))
                iss1 iss2 (set_startTime (now (nreads iss1)) LimitsType_new) Hs)
    as Heq.
  pose proof (avail_le_length iss1). pose proof (avail_le_length iss2).
  specialize (Heq ltac:(lia) ltac:(lia)).
  destruct Hs as [_ Hn]. rewrite <- Hn.
  destruct (go_loop _ _ iss1 _) as [[l1 j1]|], (go_loop _ _ iss2 _) as [[l2 j2]|];
    cbn [option_map fst] in Heq; congruence.
Qed.

Lemma command_first_token_nreads cmd :
  exists iss,
    read_string (istringstream cmd) = (head (words cmd), iss) /\
    pending iss = tail (words cmd) /\ nreads iss = 1%nat.
Proof.
  pose proof (read_string_pending (istringstream cmd)) as Hr.
  change (pending (istringstream cmd)) with (words cmd) in Hr.
  destruct (words cmd) as [|t ts].
  - destruct Hr as (iss & Hr & Hf & Hn). exists iss. split; [exact Hr|].
    split; [apply failed_pending; assumption|exact Hn].
  - destruct Hr as (iss & Hr & Hp & _ & _ & Hn & _). exists iss.
    repeat split; assumption.
Qed.

Lemma command_go_same_words w c1 c2 :
  words c1 = words c2 -> head (words c1) = Some "go" ->
  command w c1 = command w c2.
Proof.
  intros Hw Hh. unfold command.
  destruct (command_first_token_nreads c1) as (i1 & -> & Hp1 & Hn1).
  destruct (command_first_token_nreads c2) as (i2 & -> & Hp2 & Hn2).
  rewrite <- Hw, Hh. change (default EmptyString (Some "go")) with "go".
  cbn [String.eqb Ascii.eqb Bool.eqb orb andb].
  apply go_same_input. split; congruence.
Qed.

(** X6: for the twelve known commands only the words of the line count:
    two lines with the same words, however they are spaced, have the same
    effect in every state. *)
Theorem command_depends_on_words_only (w : World) (c1 c2 : string) :
  words c1 = words c2 ->
  (exists k, In k commands /\ head (words c1) = Some k) ->
  command w c1 = command w c2.
Proof.
  intros Hw (k & Hk & Hh).
  destruct (String.eqb_spec k "go") as [->|Hgo];
    [apply command_go_same_words; assumption|].
  destruct (command_cases w c1) as (w1 & H1 & Hc1).
  destruct (command_cases w c2) as (w2 & H2 & Hc2).
  cbv zeta in Hc1, Hc2. rewrite H1, H2. rewrite <- Hw in Hc2. rewrite Hh in *.
  repeat match type of Hc1 with _ \/ _ => destruct Hc1 as [Hc1|Hc1] end;
    try (destruct Hc1 as (Ht1 & Hw1); try destruct Hw1 as (? & Hw1));
    try (destruct Hc1 as (Ht1 & Harm1 & Hw1));
    try (exfalso; apply (Ht1 k Hk); reflexivity);
    try (injection Ht1 as ->; congruence);
    (repeat match type of Hc2 with _ \/ _ => destruct Hc2 as [Hc2|Hc2] end;
     try (destruct Hc2 as (Ht2 & Hw2); try destruct Hw2 as (? & Hw2));
     try (destruct Hc2 as (Ht2 & Harm2 & Hw2));
     try (exfalso; apply (Ht2 k Hk); reflexivity);
     try congruence;
     try (destruct Ht1 as [Ht1|[Ht1|[Ht1 Ha1]]];
          first [congruence
                | destruct Ht2 as [Ht2|[Ht2|[Ht2 Ha2]]]; congruence])).
  all: try (destruct Ht2 as [Ht2|[Ht2|[Ht2 Ha2]]]; congruence).
Qed.

(** X7: an integer keyword of [go] that is the last word of the line
    leaves its field as it was; nothing is stored and the parse ends. *)
Theorem go_int_keyword_without_value
    n p iss (l : LimitsType) kw set lo hi :
  In (kw, set, (lo, hi)) int_keywords ->
  pending iss = [kw] ->
  (avail iss < n)%nat ->
  exists iss', go_loop n p iss l = Some (l, iss').
Proof.
  intros Hin Hp Hn. destruct n as [|n]; [lia|].
  destruct (go_loop_int_keyword n p iss l _ _ _ _ _ Hin Hp)
    as (iss1 & Hp1 & _ & Hlt & _ & ->).
  destruct (read_int_pending_nil lo hi iss1 Hp1) as (iss2 & -> & Hf2 & _).
  cbv beta iota. cbn [store]. destruct n as [|n]; [lia|].
  destruct (go_loop_failed n p iss2 l Hf2) as (iss3 & -> & _).
  exists iss3. reflexivity.
Qed.

(** X8: an integer keyword of [go] followed by a word that does not start
    with a digit or a sign stores 0 in its field and ends the parse: the
    words after it are never looked at. *)
Theorem go_int_keyword_bad_value
    n p iss (l : LimitsType) kw set lo hi c t rest :
  In (kw, set, (lo, hi)) int_keywords ->
  pending iss = kw :: String c t :: rest ->
  isdigit c = false -> c <> "-"%char -> c <> "+"%char ->
  (avail iss < n)%nat ->
  exists iss', go_loop n p iss l = Some (set 0 l, iss') /\ failbit iss' = true.
Proof.
  intros Hin Hp Hd Hm Hpl Hn. destruct n as [|n]; [lia|].
  destruct (go_loop_int_keyword n p iss l _ _ _ _ _ Hin Hp)
    as (iss1 & Hp1 & _ & Hlt & _ & ->).
  pose proof (pending_cons_nospace _ _ _ Hp1) as Hns.
  cbn [nospace] in Hns. apply andb_true_iff in Hns as [Hc _].
  apply negb_true_iff in Hc. apply Ascii.eqb_neq in Hm, Hpl.
  assert (Hit : read_int lo hi
                  {| buf := String c t; failbit := false; nreads := nreads iss1 |}
                = (Some 0, {| buf := String c t; failbit := true;
                              nreads := S (nreads iss1) |})).
  { unfold read_int. cbn [failbit buf nreads skipws]. rewrite Hc, Hm, Hpl.
    unfold read_int_digits. cbn [read_digits]. rewrite Hd. reflexivity. }
  destruct (read_int_pending lo hi iss1 _ _ Hp1) as (iss2 & Hr & Hf2 & _).
  rewrite Hit in Hr, Hf2. cbn [fst snd failbit] in Hr, Hf2. rewrite Hr.
  cbv beta iota. cbn [store]. destruct n as [|n]; [lia|].
  destruct (go_loop_failed n p iss2 (set 0 l) Hf2) as (iss3 & -> & Hf3).
  exists iss3. split; [reflexivity|exact Hf3].
Qed.

(** X9: an integer keyword of [go] followed by a word that is a whole
    decimal numeral (optionally signed) within the range of the field's type
    stores its value, and the parse goes on with the words after it. *)
Theorem go_int_keyword_numeral
    n p iss (l : LimitsType) kw set lo hi t v rest :
  In (kw, set, (lo, hi)) int_keywords ->
  pending iss = kw :: t :: rest ->
  numeral_value t = Some v -> lo <= v <= hi ->
  exists iss2,
    pending iss2 = rest /\ (avail iss2 < avail iss)%nat /\
    go_loop (S n) p iss l = go_loop n p iss2 (set v l).
Proof.
  intros Hin Hp Hv Hrange.
  destruct (go_loop_int_keyword n p iss l _ _ _ _ _ Hin Hp)
    as (iss1 & Hp1 & _ & Hlt & _ & ->).
  pose proof (pending_cons_nospace _ _ _ Hp1) as Hns.
  pose proof (read_int_avail lo hi iss1) as Hav.
  destruct (read_int_pending lo hi iss1 _ _ Hp1) as (iss2 & Hr & Hf2 & _ & Hp2).
  rewrite (read_int_numeral lo hi _ t v Hns Hv) in Hr, Hf2, Hp2.
  destruct (Z.ltb_spec v lo); [lia|]. destruct (Z.ltb_spec hi v); [lia|].
  cbn [fst snd failbit buf word_of app] in Hr, Hf2, Hp2.
  rewrite Hr in Hav |- *. cbn [snd] in Hav. cbv beta iota. cbn [store].
  exists iss2. split; [exact Hp2|]. split; [lia|reflexivity].
Qed.

(** X10: a numeral that does not fit the field's type stores the nearest
    bound of the type and ends the parse. *)
Theorem go_int_keyword_out_of_range
    n p iss (l : LimitsType) kw set lo hi t v rest :
  In (kw, set, (lo, hi)) int_keywords ->
  pending iss = kw :: t :: rest ->
  numeral_value t = Some v -> (v < lo \/ hi < v) ->
  (avail iss < n)%nat ->
  exists iss',
    go_loop n p iss l = Some (set (if v <? lo then lo else hi) l, iss') /\
    failbit iss' = true.
Proof.
  intros Hin Hp Hv Hrange Hn. destruct n as [|n]; [lia|].
  destruct (go_loop_int_keyword n p iss l _ _ _ _ _ Hin Hp)
    as (iss1 & Hp1 & _ & Hlt & _ & ->).
  pose proof (pending_cons_nospace _ _ _ Hp1) as Hns.
  destruct (read_int_pending lo hi iss1 _ _ Hp1) as (iss2 & Hr & Hf2 & _).
  rewrite (read_int_numeral lo hi _ t v Hns Hv) in Hr, Hf2.
  destruct n as [|n]; [lia|].
  destruct (Z.ltb_spec v lo).
  - cbn [fst snd failbit] in Hr, Hf2. rewrite Hr. cbv beta iota. cbn [store].
    destruct (go_loop_failed n p iss2 (set lo l) Hf2) as (iss3 & -> & Hf3).
    exists iss3. split; [reflexivity|exact Hf3].
  - destruct (Z.ltb_spec hi v); [|lia].
    cbn [fst snd failbit] in Hr, Hf2. rewrite Hr. cbv beta iota. cbn [store].
    destruct (go_loop_failed n p iss2 (set hi l) Hf2) as (iss3 & -> & Hf3).
    exists iss3. split; [reflexivity|exact Hf3].
Qed.

(** ** More on position and setoption *)

Lemma applies_replay applied rest : forall p p' sts st0,
  applies p applied p' sts ->
  match rest with
  | [] => True
  | t :: _ => UCI_to_move p' t = MOVE_NONE
  end ->
  replay p st0 (applied ++ rest) = (p', (rev sts ++ st0)%list).
Proof.
  induction applied as [|t applied IH]; intros p p' sts st0 Ha Hstop.
  - inversion Ha; subst. cbn [app rev]. destruct rest as [|t rest]; [reflexivity|].
    cbn [replay]. destruct (decide (UCI_to_move p' t = MOVE_NONE)); [reflexivity|].
    contradiction.
  - inversion Ha as [|? ? ? p1 si ? sts' Hm Hd Ha']; subst.
    cbn [app replay]. destruct (decide (UCI_to_move p t = MOVE_NONE)); [contradiction|].
    rewrite Hd. rewrite (IH _ _ _ (si :: st0) Ha' Hstop).
    cbn [rev]. rewrite <- app_assoc. reflexivity.
Qed.

(** X11: if the first words of the move list parse and are made one after
    the other, and the word after them (if any) does not parse in the
    position reached, then [position] ends in exactly that position with
    exactly their snapshots on the stack; a move list that is legal
    throughout is replayed to its end. *)
Theorem position_replay_determined
    (w : World) (iss : istream) (fen : string) (applied rest : list string)
    (p' : Position) (sts : list StateInfo) :
  recognized (position_variant (Options w)) (pending iss) fen (applied ++ rest) ->
  applies (Position_set (pos w) fen (position_variant (Options w)) Threads_main)
    applied p' sts ->
  match rest with
  | [] => True
  | t :: _ => UCI_to_move p' t = MOVE_NONE
  end ->
  position w iss = Some (set_SetupStates (Some (rev sts)) (set_pos p' w)).
Proof.
  intros Hrec Ha Hstop. rewrite (position_recognized _ _ _ _ Hrec).
  unfold install. rewrite (applies_replay _ _ _ _ _ [] Ha Hstop).
  rewrite app_nil_r. reflexivity.
Qed.

Lemma fen_text_join fs :
  fs <> [] -> fen_text fs = join " " fs +:+ " ".
Proof.
  induction fs as [|t fs IH]; [congruence|]. intros _.
  destruct fs as [|t2 fs].
  - cbn [fen_text join]. rewrite append_empty_r. reflexivity.
  - change (fen_text (t :: t2 :: fs)) with (t +:+ " " +:+ fen_text (t2 :: fs)).
    rewrite IH by discriminate. rewrite join_cons_cons, !append_assoc3.
    reflexivity.
Qed.

(** X12: the FEN handed to [Position::set] by the "fen" branch is the FEN
    words joined by single spaces with one more space at the end, whatever
    the spacing of the line; with no FEN word at all it is the empty
    string, and the position is still set and the stack still replaced. *)
Theorem position_fen_text_normalised
    (w : World) (iss : istream) (fs tl : list string) :
  pending iss = "fen" :: (fs ++ tl)%list ->
  ~ In "moves" fs ->
  (tl = [] \/ head tl = Some "moves") ->
  position w iss =
  Some (install w
          (match fs with
           | [] => EmptyString
           | _ => join " " fs +:+ " "
           end)
          (position_variant (Options w)) (tail tl)).
Proof.
  intros Hp Hno Htl.
  assert (Hfen : match fs with
                 | [] => EmptyString
                 | _ => join " " fs +:+ " "
                 end = fen_text fs).
  { destruct fs as [|t fs]; [reflexivity|]. symmetry. apply fen_text_join.
    discriminate. }
  rewrite Hfen. apply position_recognized. rewrite Hp.
  destruct Htl as [->|Hh].
  - rewrite app_nil_r. apply recognized_fen. exact Hno.
  - destruct tl as [|t tl]; [discriminate|]. injection Hh as ->.
    apply recognized_fen_moves. exact Hno.
Qed.

Lemma command_setoption w cmd :
  head (words cmd) = Some "setoption" ->
  command w cmd =
  Some (apply_option (option_name (tail (words cmd)))
          (option_value (tail (words cmd))) w).
Proof.
  intros Hh. unfold command.
  destruct (command_first_token cmd) as (iss & -> & Hp). rewrite Hh.
  change (default EmptyString (Some "setoption")) with "setoption".
  cbn [String.eqb Ascii.eqb Bool.eqb orb andb].
  rewrite setoption_pending, Hp. reflexivity.
Qed.

(** X13: the line "setoption name N value V", with N and V any words
    joined by single spaces (N without the word "value", V possibly with
    it), looks up exactly N and assigns exactly V: when N is registered, a
    lookup of N afterwards yields V. *)
Theorem command_setoption_round_trip (w : World) (ns vs : list string) :
  Forall (fun t => words t = [t]) ns ->
  Forall (fun t => words t = [t]) vs ->
  ~ In "value" ns ->
  exists w',
    command w ("setoption name " +:+ join " " ns +:+ " value " +:+ join " " vs)
    = Some w' /\
    w' = apply_option (join " " ns) (join " " vs) w /\
    (is_Some (Options w !! join " " ns) ->
     Options w' !! join " " ns = Some (join " " vs)).
Proof.
  intros Hns Hvs Hno.
  assert (Hw : words ("setoption name " +:+ join " " ns +:+ " value "
                      +:+ join " " vs)
               = "setoption" :: "name" :: (ns ++ "value" :: vs)%list).
  { change ("setoption name " +:+ join " " ns +:+ " value " +:+ join " " vs)
      with ("setoption name" +:+
            String " " (join " " ns +:+ String " " ("value" +:+
              String " " (join " " vs)))).
    rewrite words_app_ends by reflexivity.
    change (words (String " " (join " " ns +:+ String " " ("value" +:+
              String " " (join " " vs)))))
      with (words (join " " ns +:+ String " " ("value" +:+
              String " " (join " " vs)))).
    rewrite words_app_ends by reflexivity. rewrite (words_join _ Hns).
    change (words (String " " ("value" +:+ String " " (join " " vs))))
      with (words ("value" +:+ String " " (join " " vs))).
    rewrite words_app_ends by reflexivity.
    change (words (String " " (join " " vs))) with (words (join " " vs)).
    rewrite (words_join _ Hvs). reflexivity. }
  rewrite command_setoption by (rewrite Hw; reflexivity).
  rewrite Hw. unfold option_name, option_value. cbn [tail].
  destruct (before_after_app "value" ns vs Hno) as [-> ->].
  eexists. split; [reflexivity|]. split; [reflexivity|].
  intros [v Hv]. unfold apply_option. rewrite Hv. cbn [Options set_Options].
  apply lookup_insert_eq.
Qed.

(** X14: a setoption command with no option name, because nothing follows
    the first token or "value" follows it directly, looks up the empty
    name; unless an option with the empty name is registered it reports
    "No such option: " and leaves the registry alone. *)
Theorem setoption_without_name (w : World) (iss : istream) (vs : list string) :
  (tail (pending iss) = [] \/ tail (pending iss) = "value" :: vs) ->
  Options w !! EmptyString = None ->
  setoption w iss = Some (sync_cout "No such option: " w).
Proof.
  intros Hp Hno. rewrite setoption_pending. unfold option_name, option_value.
  destruct Hp as [-> | ->]; cbn [before after String.eqb Ascii.eqb Bool.eqb join];
    unfold apply_option; rewrite Hno; reflexivity.
Qed.

(** X15: a "position" line followed by a "go" line starts the search on
    exactly the position and the state history stack the "position" line
    built; "go" itself changes neither. *)
Theorem command_position_then_go (w : World) (c1 c2 : string) :
  head (words c1) = Some "position" ->
  head (words c2) = Some "go" ->
  exists w1 w2 limits,
    command w c1 = Some w1 /\ command w1 c2 = Some w2 /\
    w1 = position_words w (tail (words c1)) /\
    calls w2 = (calls w ++ [start_thinking (pos w1) limits (SetupStates w1)])%list /\
    pos w2 = pos w1 /\ SetupStates w2 = SetupStates w1.
Proof.
  intros H1 H2.
  destruct (command_cases w c1) as (w1 & Hc1 & Hcase1). cbv zeta in Hcase1.
  rewrite H1 in Hcase1.
  assert (Hw1 : w1 = position_words w (tail (words c1))).
  { repeat match type of Hcase1 with _ \/ _ => destruct Hcase1 as [Hcase1|Hcase1] end;
      try (destruct Hcase1 as (Ht & Hw); try destruct Hw as (? & Hw));
      try (destruct Hcase1 as (Ht & Harm & Hw)); try congruence.
    - destruct Ht as [Ht|[Ht|[Ht _]]]; congruence.
    - exfalso. apply (Ht "position"); [unfold commands; cbn [In]; tauto|reflexivity]. }
  destruct (command_cases w1 c2) as (w2 & Hc2 & Hcase2). cbv zeta in Hcase2.
  rewrite H2 in Hcase2.
  assert (Hw2 : exists l, w2 = call (start_thinking (pos w1) l (SetupStates w1)) w1).
  { repeat match type of Hcase2 with _ \/ _ => destruct Hcase2 as [Hcase2|Hcase2] end;
      try (destruct Hcase2 as (Ht & Hw); try destruct Hw as (? & Hw));
      try (destruct Hcase2 as (Ht & Harm & Hw)); try congruence.
    - destruct Ht as [Ht|[Ht|[Ht _]]]; congruence.
    - eexists; eassumption.
    - exfalso. apply (Ht "go"); [unfold commands; cbn [In]; tauto|reflexivity]. }
  destruct Hw2 as (l & Hw2). exists w1, w2, l.
  split; [exact Hc1|]. split; [exact Hc2|]. split; [exact Hw1|].
  rewrite Hw2. cbn [calls call pos SetupStates].
  destruct (position_words_frame w (tail (words c1))) as (_ & _ & _ & _ & _ & _ & Hcalls).
  cbv zeta in Hcalls. rewrite Hw1, Hcalls. repeat split.
Qed.

(** ** Further properties of the handlers *)

Lemma command_stop_like w cmd :
  head (words cmd) = Some "quit" \/ head (words cmd) = Some "stop" ->
  command w cmd = Some (call (start_searching true) (set_Signals_stop true w)).
Proof.
  intros Hh. unfold command.
  destruct (command_first_token cmd) as (iss & -> & _).
  destruct Hh as [-> | ->]; reflexivity.
Qed.

(** X16: "quit" and "stop" are one command, whatever follows them on the
    line and whatever the state: the stop signal is up afterwards and the
    main worker is woken once; repeating it keeps the signal up, wakes the
    worker once more and touches nothing else. *)
Theorem command_stop_repeatable (w : World) (c1 c2 : string) :
  head (words c1) = Some "quit" \/ head (words c1) = Some "stop" ->
  head (words c2) = Some "quit" \/ head (words c2) = Some "stop" ->
  exists w1 w2,
    command w c1 = Some w1 /\ command w1 c2 = Some w2 /\
    Signals_stop w1 = true /\ Signals_stop w2 = true /\
    calls w2 = (calls w ++ [start_searching true; start_searching true])%list /\
    pos w2 = pos w /\ SetupStates w2 = SetupStates w /\
    Options w2 = Options w /\ Limits w2 = Limits w /\ cout w2 = cout w.
Proof.
  intros H1 H2. eexists. eexists.
  split; [apply command_stop_like; exact H1|].
  split; [apply command_stop_like; exact H2|].
  cbn [Signals_stop calls call set_Signals_stop pos SetupStates Options Limits cout].
  rewrite <- app_assoc. repeat split.
Qed.

Lemma go_loop_skips p ws : forall iss n l,
  pending iss = ws ->
  Forall (fun t => ~ In t go_keywords) ws ->
  (avail iss < n)%nat ->
  exists iss', go_loop n p iss l = Some (l, iss').
Proof.
  induction ws as [|t ws IH]; intros iss n l Hp Hno Hn;
    (destruct n as [|n]; [lia|]); pose proof (read_string_pending iss) as Hr;
    rewrite Hp in Hr; cbn [go_loop].
  - destruct Hr as (iss' & -> & _). eexists. reflexivity.
  - destruct Hr as (iss' & -> & Hp' & _ & Hlt & _).
    apply Forall_cons_iff in Hno as [Ht Hws].
    repeat match goal with
           | |- context [if String.eqb t ?k then _ else _] =>
               destruct (String.eqb_spec t k) as [->|_];
               [exfalso; apply Ht; unfold go_keywords; cbn [In]; tauto|]
           end.
    apply IH; [assumption|assumption|lia].
Qed.

(** X17: a "go" with no option at all, or with words none of which is a
    keyword, starts the search with every limit at zero, no search-move
    restriction and the start time. *)
Theorem go_without_options (w : World) (iss : istream) :
  Forall (fun t => ~ In t go_keywords) (pending iss) ->
  go w iss =
  Some (call (start_thinking (pos w)
                (set_startTime (now (nreads iss)) LimitsType_new)
                (SetupStates w)) w).
Proof.
  intros Hno. unfold go, go_limits.
  pose proof (avail_le_length iss) as Ha.
  destruct (go_loop_skips (pos w) (pending iss) iss (S (String.length (buf iss)))
              (set_startTime (now (nreads iss)) LimitsType_new)
              eq_refl Hno ltac:(lia)) as (iss' & ->).
  reflexivity.
Qed.

(** X18: a recognized position command leaves no trace of the stack that
    was there before: the outcome is the same whatever the old stack held. *)
Theorem position_drops_old_stack
    (w : World) (iss : istream) (old : option (list StateInfo)) :
  head (pending iss) = Some "startpos" \/ head (pending iss) = Some "fen" ->
  position (set_SetupStates old w) iss = position w iss.
Proof.
  intros Hh. rewrite !position_pending. f_equal.
  unfold position_words, install.
  destruct (pending iss) as [|t rest]; [destruct Hh; discriminate|].
  cbn [head] in Hh. cbn [Options pos set_SetupStates].
  destruct Hh as [[= ->]|[= ->]]; cbn [String.eqb Ascii.eqb Bool.eqb];
    destruct (replay _ _ _); reflexivity.
Qed.

(** X19: setoption changes at most the option it names: every other
    option reads the same before and after. *)
Theorem setoption_other_options_untouched
    (w : World) (iss : istream) (other : string) :
  other <> option_name (pending iss) ->
  exists w', setoption w iss = Some w' /\
    Options w' !! other = Options w !! other.
Proof.
  intros Hne. rewrite setoption_pending. eexists. split; [reflexivity|].
  unfold apply_option. destruct (Options w !! option_name (pending iss)).
  - cbn [Options set_Options]. apply lookup_insert_ne. congruence.
  - reflexivity.
Qed.

(** X20: two setoption commands on the same registered option: the second
    value wins, and the outcome is that of the second command alone. *)
Theorem setoption_last_value_wins
    (w w1 : World) (iss1 iss2 : istream) :
  option_name (pending iss1) = option_name (pending iss2) ->
  is_Some (Options w !! option_name (pending iss1)) ->
  setoption w iss1 = Some w1 ->
  setoption w1 iss2 = setoption w iss2.
Proof.
  rewrite !setoption_pending. intros Hn [v Hv] [= <-]. f_equal.
  rewrite <- Hn. unfold apply_option. rewrite Hv.
  cbn [Options set_Options]. rewrite lookup_insert_eq.
  unfold set_Options. cbn. rewrite insert_insert_eq. reflexivity.
Qed.

Lemma land_lor_keep a b c : Z.land a c = c -> Z.land (Z.lor a b) c = c.
Proof.
  intros H. apply Z.bits_inj'. intros n Hn.
  rewrite Z.land_spec, Z.lor_spec.
  apply (f_equal (fun z => Z.testbit z n)) in H. rewrite Z.land_spec in H.
  destruct (Z.testbit a n), (Z.testbit b n), (Z.testbit c n);
    cbn in *; congruence.
Qed.

Lemma land_lor_same a c : Z.land (Z.lor a c) c = c.
Proof.
  apply Z.bits_inj'. intros n Hn. rewrite Z.land_spec, Z.lor_spec.
  destruct (Z.testbit a n), (Z.testbit c n); reflexivity.
Qed.

Lemma position_variant_keeps_bits (o : gmap string string) compiled name bit :
  In (compiled, name, bit) variant_table ->
  compiled = true -> Options_bool o name = true ->
  Z.land (position_variant o) bit = bit.
Proof.
  intros Hin Hcomp Hon. unfold variant_table in Hin.
  cbn [In] in Hin. unfold position_variant.
  repeat match type of Hin with _ \/ _ => destruct Hin as [Hin|Hin] end;
    try contradiction; injection Hin as <- <- <-;
    try rewrite Hcomp; rewrite Hon; cbn [andb];
    repeat match goal with
           | |- context [if ?b then _ else _] => destruct b
           end;
    repeat first [ apply land_lor_same | apply land_lor_keep ].
Qed.

(** X21: the flags [position] computes contain every bit of every variant
    that is compiled in and whose option is on (a later OR never clears a
    bit), and they are the standard value when no variant option is on. *)
Theorem position_variant_bits (o : gmap string string) :
  (forall compiled name bit,
     In (compiled, name, bit) variant_table ->
     compiled = true -> Options_bool o name = true ->
     Z.land (position_variant o) bit = bit) /\
  ((forall compiled name bit,
      In (compiled, name, bit) variant_table -> Options_bool o name = false) ->
   position_variant o = STANDARD_VARIANT).
Proof.
  split; [apply position_variant_keeps_bits|].
  intros Hoff. unfold position_variant.
  rewrite (Hoff true "UCI_Chess960" CHESS960_VARIANT),
    (Hoff ATOMIC "UCI_Atomic" ATOMIC_VARIANT),
    (Hoff HORDE "UCI_Horde" HORDE_VARIANT),
    (Hoff HOUSE "UCI_House" HOUSE_VARIANT),
    (Hoff KOTH "UCI_KingOfTheHill" KOTH_VARIANT),
    (Hoff RACE "UCI_Race" RACE_VARIANT),
    (Hoff THREECHECK "UCI_3Check" THREECHECK_VARIANT);
    try (unfold variant_table; cbn [In]; tauto).
  rewrite !andb_false_r. reflexivity.
Qed.

(** X22: in a build with HORDE, "position startpos" with the option
    UCI_Horde on starts from the horde position (provided the horde flag is
    not the zero constant); in a build without HORDE it starts from the
    normal position whatever the options say. *)
Theorem position_startpos_fen_choice (o : gmap string string) :
  (HORDE = true -> Options_bool o "UCI_Horde" = true -> HORDE_VARIANT <> 0 ->
   startpos_fen (position_variant o) = StartFENHorde) /\
  (HORDE = false -> startpos_fen (position_variant o) = StartFEN).
Proof.
  split.
  - intros Hh Hon Hnz. unfold startpos_fen. rewrite Hh.
    rewrite (position_variant_keeps_bits o HORDE "UCI_Horde" HORDE_VARIANT);
      [|unfold variant_table; cbn [In]; tauto|exact Hh|exact Hon].
    destruct (Z.eqb_spec HORDE_VARIANT 0); [contradiction|reflexivity].
  - intros Hh. unfold startpos_fen. rewrite Hh. reflexivity.
Qed.



(** X23: an integer keyword of [go] followed by a word that starts with
    digits and goes on with something else ("depth 10ply") stores the value
    of the digits; the rest of the word is read next, as a token of its
    own. *)
Theorem go_int_keyword_numeral_prefix
    n p iss (l : LimitsType) kw set lo hi ds c x rest :
  In (kw, set, (lo, hi)) int_keywords ->
  pending iss = kw :: (ds +:+ String c x) :: rest ->
  digits ds = true -> isdigit c = false ->
  lo <= digits_value 0 ds <= hi ->
  exists iss2,
    pending iss2 = String c x :: rest /\ (avail iss2 < avail iss)%nat /\
    go_loop (S n) p iss l = go_loop n p iss2 (set (digits_value 0 ds) l).
Proof.
  intros Hin Hp Hd Hc Hrange.
  destruct (go_loop_int_keyword n p iss l _ _ _ _ _ Hin Hp)
    as (iss1 & Hp1 & _ & Hlt & _ & ->).
  pose proof (read_int_avail lo hi iss1) as Hav.
  destruct (read_int_pending lo hi iss1 _ _ Hp1) as (iss2 & Hr & Hf2 & _ & Hp2).
  rewrite (read_int_numeral_prefix lo hi _ ds c x Hd Hc Hrange) in Hr, Hf2, Hp2.
  cbn [fst snd failbit buf word_of app] in Hr, Hf2, Hp2.
  rewrite Hr in Hav |- *. cbn [snd] in Hav. cbv beta iota. cbn [store].
  exists iss2. split; [exact Hp2|]. split; [lia|reflexivity].
Qed.
End Proofs.

(** ** The theorems at work on the small engine *)

#[local] Existing Instance toy.

(** C5: on "position startpos e2e4 e7e5" the word after "startpos" is not
    the literal "moves" and is a move the start position accepts, yet line 80
    consumes it: the outcome is that of "position startpos moves e7e5", only
    "e7e5" is replayed, and the position differs from the one reached when
    "e2e4" is left to the move loop, as the claim and the comment on line 80
    have it. *)
Theorem position_startpos_drops_following_move :
  "e2e4" <> "moves" /\
  UCI_to_move (Position_set toy_start StartFEN 0 tt) "e2e4" <> MOVE_NONE /\
  position toy_world (istringstream "startpos e2e4 e7e5")
  = position toy_world (istringstream "startpos moves e7e5") /\
  option_map pos (position toy_world (istringstream "startpos e2e4 e7e5"))
  = Some (StartFEN, 0, ["e7e5"]) /\
  option_map pos (position toy_world (istringstream "startpos e2e4 e7e5"))
  <> Some (pos (install toy_world StartFEN 0 ["e2e4"; "e7e5"])).
Proof.
  split; [discriminate|]. split; [|split; [|split]].
  - apply (bool_decide_unpack _). vm_compute. exact I.
  - vm_compute. reflexivity.
  - vm_compute. reflexivity.
  - apply (bool_decide_unpack _). vm_compute. exact I.
Qed.

(** C2: on "position startpos e2e4 e7e5" both words after the prefix parse
    to legal moves one after the other, so the longest legal prefix of the
    move list is the whole of it, with two snapshots; the code ends in the
    position after "e7e5" alone, with one snapshot on the stack. *)
Theorem position_startpos_replay_misses_legal_move :
  exists (p2 : @Position toy) (sts2 : list (@StateInfo toy)),
    applies
      (Position_set (pos toy_world) StartFEN
         (position_variant (Options toy_world)) Threads_main)
      ["e2e4"; "e7e5"] p2 sts2 /\
    length sts2 = 2%nat /\
    option_map (fun w => (pos w, SetupStates w))
      (position toy_world (istringstream "startpos e2e4 e7e5"))
    = Some ((StartFEN, 0, ["e7e5"]), Some ["e7e5"]) /\
    p2 <> (StartFEN, 0, ["e7e5"]).
Proof.
  exists ((StartFEN, 0, ["e2e4"; "e7e5"]) : @Position toy),
    [("e2e4" : @StateInfo toy); ("e7e5" : @StateInfo toy)].
  split; [|split; [|split]].
  - eapply applies_cons; [vm_compute; discriminate | reflexivity |].
    eapply applies_cons; [vm_compute; discriminate | reflexivity |].
    apply applies_nil.
  - reflexivity.
  - vm_compute. reflexivity.
  - apply (bool_decide_unpack _). vm_compute. exact I.
Qed.

(** "go searchmoves e2e4 xx": both words reach the move parser. *)
Lemma go_searchmoves_consumes_rest_witness :
  exists iss',
    go_loop (E := toy) 40 toy_start (istringstream "searchmoves e2e4 xx")
      (LimitsType_new (E := toy)) =
    Some (set_searchmoves
            (searchmoves (LimitsType_new (E := toy)) ++
             map (UCI_to_move (Engine := toy) toy_start) ["e2e4"; "xx"])
            (LimitsType_new (E := toy)), iss') /\
    failbit iss' = true.
Proof.
  apply (proj1 (go_searchmoves_consumes_rest (E := toy))).
  - reflexivity.
  - vm_compute. reflexivity.
  - simpl. lia.
Defined.

(** "position fen 8/8 w moves e2e4 e7e5 e2e4 g1f3": the third move is a
    repetition the small engine refuses, so two moves are applied. *)
Lemma position_replays_longest_legal_prefix_witness :
  exists applied rest p' sts w',
    ["e2e4"; "e7e5"; "e2e4"; "g1f3"] = (applied ++ rest)%list /\
    applies (E := toy)
      (Position_set (pos toy_world) (fen_text ["8/8"; "w"])
         (position_variant (Options toy_world)) Threads_main)
      applied p' sts /\
    match rest with
    | [] => True
    | t :: _ => UCI_to_move p' t = MOVE_NONE
    end /\
    length sts = length applied /\
    position toy_world (istringstream "fen 8/8 w moves e2e4 e7e5 e2e4 g1f3")
      = Some w' /\
    w' = set_SetupStates (Some (rev sts)) (set_pos p' toy_world) /\
    pos w' = p' /\ SetupStates w' = Some (rev sts) /\
    cout w' = cout toy_world /\ calls w' = calls toy_world.
Proof.
  apply (position_replays_longest_legal_prefix (E := toy) toy_world
           (istringstream "fen 8/8 w moves e2e4 e7e5 e2e4 g1f3")).
  apply (recognized_fen_moves (E := toy) _ ["8/8"; "w"]
           ["e2e4"; "e7e5"; "e2e4"; "g1f3"]).
  simpl. intros [H|[H|[]]]; discriminate H.
Defined.

Lemma position_unrecognized_prefix_untouched_witness :
  position (E := toy) toy_world (istringstream "startposition moves e2e4")
  = Some toy_world.
Proof.
  apply (position_unrecognized_prefix_untouched (E := toy)).
  - vm_compute. discriminate.
  - vm_compute. discriminate.
Defined.

(** "setoption name Hash value 128" with Hash registered, and
    "setoption name Hashx value 128" with Hashx not registered. *)
Lemma setoption_registered_or_reported_witness :
  (exists w',
     setoption (E := toy) toy_world (istringstream "name Hash value 128") = Some w' /\
     Options w' !! "Hash" = Some "128" /\ cout w' = []) /\
  (exists w',
     setoption (E := toy) toy_world (istringstream "name Hashx value 128") = Some w' /\
     cout w' = ["No such option: Hashx"] /\ Options w' = Options toy_world).
Proof.
  split.
  - destruct (setoption_registered_or_reported (E := toy) toy_world
                (istringstream "name Hash value 128"))
      as (w' & Hs & Hin & _).
    exists w'. split; [exact Hs|].
    destruct Hin as (_ & Hv & Hc); [vm_compute; eauto|].
    split; [exact Hv|exact Hc].
  - destruct (setoption_registered_or_reported (E := toy) toy_world
                (istringstream "name Hashx value 128"))
      as (w' & Hs & _ & Hout & _).
    exists w'. split; [exact Hs|].
    destruct Hout as (Hc & Ho); [vm_compute; reflexivity|].
    split; [exact Hc|exact Ho].
Defined.

(** "go foo depth 3": the word "foo" is skipped, in the loop and in what
    [go] hands over. *)
Lemma go_limits_parsed_witness :
  (exists iss1,
     read_string (istringstream "foo depth 3") = (Some "foo", iss1) /\
     go_loop (E := toy) 12 toy_start (istringstream "foo depth 3")
       (LimitsType_new (E := toy))
     = go_loop 11 toy_start iss1 (LimitsType_new (E := toy))) /\
  (exists iss1 l iss',
     read_string (istringstream "foo depth 3") = (Some "foo", iss1) /\
     go_loop (String.length (buf (istringstream "foo depth 3"))) (pos toy_world)
       iss1 (set_startTime (now (nreads (istringstream "foo depth 3")))
               LimitsType_new) = Some (l, iss') /\
     go toy_world (istringstream "foo depth 3") =
     Some (call (start_thinking (pos toy_world) l (SetupStates toy_world))
             toy_world)).
Proof.
  split.
  - apply (proj1 (proj2 (proj2 (proj2 (proj2 (go_limits_parsed (E := toy))))))).
    + reflexivity.
    + vm_compute. reflexivity.
    + vm_compute. intuition discriminate.
  - apply (proj2 (proj2 (proj2 (proj2 (proj2 (go_limits_parsed (E := toy)))))))
      with (t := "foo").
    + reflexivity.
    + vm_compute. reflexivity.
    + vm_compute. intuition discriminate.
Defined.

Lemma setoption_name_value_joined_witness :
  setoption (E := toy) toy_world (istringstream "name Some Long Name value")
  = Some (set_Options (<["Some Long Name" := EmptyString]> (Options toy_world)) toy_world)
  /\
  setoption (E := toy) toy_world (istringstream "name Some Long Name")
  = Some (apply_option "Some Long Name" EmptyString toy_world).
Proof.
  split.
  - apply (proj2 (proj2 (setoption_name_value_joined (E := toy)))).
    vm_compute. eauto.
  - apply (proj1 (proj2 (setoption_name_value_joined (E := toy)))
             toy_world (istringstream "name Some Long Name")).
    + reflexivity.
    + vm_compute. intuition discriminate.
Defined.

(** "position startpos", then "setoption name UCI_Atomic value true", then
    "position startpos": the second position is set with the atomic bit. *)
Lemma position_variant_recomputed_witness :
  exists fen mvs,
    position (E := toy)
      (apply_option "UCI_Atomic" "true" (install toy_world StartFEN 0 []))
      (istringstream "startpos") =
    Some (install
            (apply_option "UCI_Atomic" "true" (install toy_world StartFEN 0 []))
            fen (variant_flags (<["UCI_Atomic" := "true"]> (Options toy_world)))
            mvs).
Proof.
  apply (proj2 (proj2 (position_variant_recomputed (E := toy)))
           toy_world (istringstream "startpos")
           (install toy_world StartFEN 0 []) "UCI_Atomic" "true"
           (istringstream "startpos") "startpos" []).
  - vm_compute. reflexivity.
  - vm_compute. eauto.
  - vm_compute. reflexivity.
  - left. reflexivity.
Defined.

Lemma command_ponderhit_witness :
  (command (E := toy) (mkWorld toy_options toy_start None false true
                         (LimitsType_new (E := toy)) 0 [] []) "ponderhit"
   = command (mkWorld toy_options toy_start None false true
                (LimitsType_new (E := toy)) 0 [] []) "stop") /\
  (exists w', command (E := toy) toy_world "ponderhit" = Some w' /\
     ponder (Limits w') = 0 /\ Signals_stop w' = false).
Proof.
  split.
  - apply (command_ponderhit (E := toy)); reflexivity.
  - destruct (proj2 (command_ponderhit (E := toy) toy_world "ponderhit" eq_refl)
                eq_refl) as (w' & Hc & _ & Hp & Hs & _).
    exists w'. split; [exact Hc|]. split; [exact Hp|exact Hs].
Defined.

Lemma command_blank_line_unknown_witness :
  exists w', command (E := toy) toy_world "   " = Some w' /\
    w' = sync_cout ("Unknown command: " +:+ "   ") toy_world /\
    cout w' = (cout toy_world ++ ["Unknown command: " +:+ "   "])%list /\
    pos w' = pos toy_world /\ SetupStates w' = SetupStates toy_world /\
    Options w' = Options toy_world.
Proof.
  apply (command_blank_line_unknown (E := toy) toy_world "   ").
  reflexivity.
Defined.

(** ** The further properties at work on the small engine *)

Lemma command_output_append_only_witness :
  exists w', command toy_world "go depth 3" = Some w' /\ cout w' = cout toy_world.
Proof.
  destruct (command_output_append_only toy_world "go depth 3") as (w' & Hc & _ & Hk).
  exists w'. split; [exact Hc|]. apply (Hk "go").
  - simpl. tauto.
  - vm_compute. reflexivity.
Defined.

(** The comparison is exact: "Quit" is not "quit". *)
Lemma command_unknown_token_witness :
  command toy_world "  Quit now" =
  Some (sync_cout ("Unknown command: " +:+ "  Quit now") toy_world).
Proof.
  apply (command_unknown_token toy_world "  Quit now").
  intros k Hin Hh. vm_compute in Hh. injection Hh as <-.
  unfold commands in Hin. simpl in Hin. intuition discriminate.
Defined.

Lemma command_depends_on_words_only_witness :
  command toy_world "  go   depth 3  wtime   1000 " =
  command toy_world "go depth 3 wtime 1000".
Proof.
  apply (command_depends_on_words_only toy_world).
  - vm_compute. reflexivity.
  - exists "go". split; [simpl; tauto|vm_compute; reflexivity].
Defined.

Lemma go_int_keyword_without_value_witness :
  exists iss',
    go_loop 10 toy_start (istringstream "depth") (set_depth 7 LimitsType_new)
    = Some (set_depth 7 LimitsType_new, iss').
Proof.
  apply (go_int_keyword_without_value 10 toy_start (istringstream "depth")
           (set_depth 7 LimitsType_new) "depth" set_depth INT_MIN INT_MAX).
  - simpl. tauto.
  - vm_compute. reflexivity.
  - unfold avail. simpl. lia.
Defined.

Lemma go_int_keyword_bad_value_witness :
  exists iss',
    go_loop 30 toy_start (istringstream "depth x wtime 5") LimitsType_new
    = Some (set_depth 0 LimitsType_new, iss') /\ failbit iss' = true.
Proof.
  apply (go_int_keyword_bad_value 30 toy_start (istringstream "depth x wtime 5")
           LimitsType_new "depth" set_depth INT_MIN INT_MAX "x"%char
           EmptyString ["wtime"; "5"]).
  - simpl. tauto.
  - vm_compute. reflexivity.
  - reflexivity.
  - discriminate.
  - discriminate.
  - unfold avail. simpl. lia.
Defined.

Lemma go_int_keyword_numeral_witness :
  exists iss2,
    pending iss2 = ["wtime"; "5"] /\
    (avail iss2 < avail (istringstream "depth -12 wtime 5"))%nat /\
    go_loop 30 toy_start (istringstream "depth -12 wtime 5") LimitsType_new
    = go_loop 29 toy_start iss2 (set_depth (-12) LimitsType_new).
Proof.
  apply (go_int_keyword_numeral 29 toy_start (istringstream "depth -12 wtime 5")
           LimitsType_new "depth" set_depth INT_MIN INT_MAX "-12" (-12)
           ["wtime"; "5"]).
  - simpl. tauto.
  - vm_compute. reflexivity.
  - reflexivity.
  - vm_compute. split; discriminate.
Defined.

Lemma go_int_keyword_out_of_range_witness :
  exists iss',
    go_loop 40 toy_start (istringstream "wtime 99999999999 depth 2") LimitsType_new
    = Some (set_time WHITE INT_MAX LimitsType_new, iss') /\ failbit iss' = true.
Proof.
  apply (go_int_keyword_out_of_range 40 toy_start
           (istringstream "wtime 99999999999 depth 2") LimitsType_new
           "wtime" (set_time WHITE) INT_MIN INT_MAX "99999999999" 99999999999
           ["depth"; "2"]).
  - simpl. tauto.
  - vm_compute. reflexivity.
  - reflexivity.
  - right. vm_compute. reflexivity.
  - unfold avail. simpl. lia.
Defined.

Lemma position_replay_determined_witness :
  position toy_world (istringstream "startpos moves e2e4 e7e5 e2e4 g1f3") =
  Some (set_SetupStates (Some (rev [("e2e4" : @StateInfo toy); ("e7e5" : @StateInfo toy)]))
          (set_pos ((StartFEN, 0, ["e2e4"; "e7e5"]) : @Position toy) toy_world)).
Proof.
  apply (position_replay_determined toy_world
           (istringstream "startpos moves e2e4 e7e5 e2e4 g1f3") StartFEN
           ["e2e4"; "e7e5"] ["e2e4"; "g1f3"]
           ((StartFEN, 0, ["e2e4"; "e7e5"]) : @Position toy)
           [("e2e4" : @StateInfo toy); ("e7e5" : @StateInfo toy)]).
  - replace StartFEN with (startpos_fen (position_variant (Options toy_world)))
      by (vm_compute; reflexivity).
    apply (recognized_startpos_moves (position_variant (Options toy_world))
             ["e2e4"; "e7e5"; "e2e4"; "g1f3"]).
  - eapply applies_cons; [vm_compute; discriminate | reflexivity |].
    eapply applies_cons; [vm_compute; discriminate | reflexivity |].
    apply applies_nil.
  - vm_compute. reflexivity.
Defined.

Lemma position_fen_text_normalised_witness :
  position toy_world (istringstream "fen  8/8   w  moves e2e4") =
  Some (install toy_world "8/8 w " 0 ["e2e4"]).
Proof.
  apply (position_fen_text_normalised toy_world
           (istringstream "fen  8/8   w  moves e2e4") ["8/8"; "w"]
           ["moves"; "e2e4"]).
  - vm_compute. reflexivity.
  - simpl. intuition discriminate.
  - right. reflexivity.
Defined.

(** A value may contain the word "value". *)
Lemma command_setoption_round_trip_witness :
  exists w',
    command toy_world
      ("setoption name " +:+ join " " ["Some"; "Long"; "Name"] +:+ " value "
       +:+ join " " ["a"; "value"; "b"]) = Some w' /\
    Options w' !! "Some Long Name" = Some "a value b".
Proof.
  destruct (command_setoption_round_trip toy_world ["Some"; "Long"; "Name"]
              ["a"; "value"; "b"]) as (w' & Hc & _ & Hl).
  - repeat constructor.
  - repeat constructor.
  - simpl. intuition discriminate.
  - exists w'. split; [exact Hc|]. apply Hl. vm_compute. eauto.
Defined.

Lemma setoption_without_name_witness :
  setoption toy_world (istringstream "name") =
  Some (sync_cout "No such option: " toy_world).
Proof.
  apply (setoption_without_name toy_world (istringstream "name") []).
  - left. vm_compute. reflexivity.
  - vm_compute. reflexivity.
Defined.

Lemma command_position_then_go_witness :
  exists w1 w2 limits,
    command toy_world "position startpos moves e2e4" = Some w1 /\
    command w1 "go infinite" = Some w2 /\
    w1 = position_words toy_world
           (tail (words "position startpos moves e2e4")) /\
    calls w2 =
      (calls toy_world ++ [start_thinking (pos w1) limits (SetupStates w1)])%list /\
    pos w2 = pos w1 /\ SetupStates w2 = SetupStates w1.
Proof.
  apply (command_position_then_go toy_world "position startpos moves e2e4"
           "go infinite"); vm_compute; reflexivity.
Defined.

Lemma command_stop_repeatable_witness :
  exists w1 w2,
    command toy_world "stop" = Some w1 /\ command w1 "quit now" = Some w2 /\
    Signals_stop w1 = true /\ Signals_stop w2 = true /\
    calls w2 =
      (calls toy_world ++ [start_searching true; start_searching true])%list /\
    pos w2 = pos toy_world /\ SetupStates w2 = SetupStates toy_world /\
    Options w2 = Options toy_world /\ Limits w2 = Limits toy_world /\
    cout w2 = cout toy_world.
Proof.
  apply (command_stop_repeatable toy_world "stop" "quit now").
  - right. reflexivity.
  - left. vm_compute. reflexivity.
Defined.

Lemma go_without_options_witness :
  go toy_world (istringstream "foo bar") =
  Some (call (start_thinking (pos toy_world)
                (set_startTime (now (nreads (istringstream "foo bar")))
                   LimitsType_new)
                (SetupStates toy_world)) toy_world).
Proof.
  apply (go_without_options toy_world (istringstream "foo bar")).
  vm_compute. repeat constructor; intuition discriminate.
Defined.

Lemma position_drops_old_stack_witness :
  position (set_SetupStates (Some ["old"]) toy_world) (istringstream "startpos")
  = position toy_world (istringstream "startpos").
Proof.
  apply (position_drops_old_stack toy_world (istringstream "startpos")).
  left. vm_compute. reflexivity.
Defined.

Lemma setoption_other_options_untouched_witness :
  exists w',
    setoption toy_world (istringstream "name Hash value 1") = Some w' /\
    Options w' !! "UCI_Chess960" = Options toy_world !! "UCI_Chess960".
Proof.
  apply (setoption_other_options_untouched toy_world
           (istringstream "name Hash value 1") "UCI_Chess960").
  vm_compute. discriminate.
Defined.

Lemma setoption_last_value_wins_witness :
  setoption (apply_option "Hash" "1" toy_world) (istringstream "name Hash value 2")
  = setoption toy_world (istringstream "name Hash value 2").
Proof.
  apply (setoption_last_value_wins toy_world (apply_option "Hash" "1" toy_world)
           (istringstream "name Hash value 1") (istringstream "name Hash value 2")).
  - vm_compute. reflexivity.
  - vm_compute. eauto.
  - vm_compute. reflexivity.
Defined.

Lemma position_variant_bits_witness :
  Z.land (position_variant (<["UCI_Atomic" := "true"]> toy_options)) 2 = 2 /\
  position_variant toy_options = STANDARD_VARIANT.
Proof.
  split.
  - apply (proj1 (position_variant_bits (<["UCI_Atomic" := "true"]> toy_options))
             true "UCI_Atomic" 2).
    + simpl. tauto.
    + reflexivity.
    + vm_compute. reflexivity.
  - apply (proj2 (position_variant_bits toy_options)).
    intros compiled name bit Hin. simpl in Hin.
    repeat match type of Hin with _ \/ _ => destruct Hin as [Hin|Hin] end;
      try contradiction; injection Hin as <- <- <-; vm_compute; reflexivity.
Defined.

Lemma position_startpos_fen_choice_witness :
  startpos_fen (position_variant (<["UCI_Horde" := "true"]> toy_options))
  = StartFENHorde.
Proof.
  apply (proj1 (position_startpos_fen_choice
                  (<["UCI_Horde" := "true"]> toy_options))).
  - reflexivity.
  - vm_compute. reflexivity.
  - discriminate.
Defined.

(** "go depth 3ponder": depth is 3 and the next token is "ponder". *)
Lemma go_int_keyword_numeral_prefix_witness :
  exists iss2,
    pending iss2 = ["ponder"] /\
    (avail iss2 < avail (istringstream "depth 3ponder"))%nat /\
    go_loop 20 toy_start (istringstream "depth 3ponder") LimitsType_new
    = go_loop 19 toy_start iss2 (set_depth 3 LimitsType_new).
Proof.
  apply (go_int_keyword_numeral_prefix 19 toy_start (istringstream "depth 3ponder")
           LimitsType_new "depth" set_depth INT_MIN INT_MAX "3" "p"%char
           "onder" []).
  - simpl. tauto.
  - vm_compute. reflexivity.
  - reflexivity.
  - reflexivity.
  - vm_compute. split; discriminate.
Defined.
